(** * RE_BO: the 7-D BOLFI search script [RE_7D_search/search_7D.py]

    A shallow embedding of the script's own logic: the discrepancy
    function, the simulator adapter, the optimum extractor, the model
    graph declaration and the search-loop controller.  Everything the
    script delegates to ELFI, GPy, SciPy, h5py or DREAM is an external
    call: the controller's calls are recorded in a trace and may raise,
    the numerical routines are section variables. *)

From Stdlib Require Import List String Ascii ZArith QArith Qabs Lia Bool.
From Stdlib Require Import DecimalString Sorted.
Import ListNotations.
Local Open Scope string_scope.
Local Open Scope Z_scope.

(** ** Python runtime: exceptions and results *)

Inductive exn : Type :=
| NameError (name : string)        (* name '...' is not defined *)
| AttributeError (attr : string)
| IndexError
| TypeError
| ValueError
| LibraryError.                    (* anything raised inside an external call *)

(** [OutOfFuel] is produced by the model of [while] only. *)
Inductive outcome (A : Type) : Type :=
| Ok (a : A)
| Raise (e : exn)
| OutOfFuel.
Arguments Ok {A} a.
Arguments Raise {A} e.
Arguments OutOfFuel {A}.

Definition obind {A B} (r : outcome A) (k : A -> outcome B) : outcome B :=
  match r with
  | Ok a => k a
  | Raise e => Raise e
  | OutOfFuel => OutOfFuel
  end.

Declare Scope py_scope.
Delimit Scope py_scope with py.
Notation "x <~ c ; k" := (obind c (fun x => k))
  (at level 61, c at next level, right associativity) : py_scope.

(** ** The module namespace

    Name resolution inside a function body: locals, then the module's
    globals, then the builtins.  [module_globals] lists every name the
    module binds at top level, in source order (imports, [def]s, and the
    assignments of the [__main__] block, whether or not they are executed):
    a name outside this list and outside the builtins is unbound at every
    point of every run. *)

Inductive binding : Type :=
| Module (dotted : string)               (* import a.b [as n] *)
| Imported (from name : string)          (* from a import n *)
| Function
| Variable_.

Definition namespace := list (string * binding).

Definition module_globals : namespace :=
  [ ("numpy", Module "numpy");
    ("plt", Module "matplotlib.pyplot");
    ("h5py", Module "h5py");
    ("pickle", Module "pickle");
    ("stats", Module "scipy.stats");
    ("differential_evolution",
       Imported "scipy.optimize" "differential_evolution");
    ("multiprocessing", Module "multiprocessing");
    ("elfi", Module "elfi");
    ("GPy", Module "GPy");
    ("GPyRegression",
       Imported "elfi.methods.bo.gpy_regression" "GPyRegression");
    ("RandMaxVar", Imported "elfi.methods.bo.acquisition" "RandMaxVar");
    ("LCBSC", Imported "elfi.methods.bo.acquisition" "LCBSC");
    ("ModelPrior", Imported "elfi.model.extensions" "ModelPrior");
    ("run_CQ_fluid_simulation_vTf",
       Imported "run_CQ_fluid_simulation_vTf" "run_CQ_fluid_simulation_vTf");
    ("IP_summary_25ms", Imported "IP_summary_25ms" "IP_summary_25ms");
    ("save_bolfi", Imported "save_bolfi" "save_bolfi");
    ("sim_fn", Function);
    ("distance1", Function);
    ("get_model", Function);
    ("find_optimum_value", Function);
    ("m", Variable_);
    ("log_d", Variable_);
    ("dictionary_name", Variable_);
    ("result_dictionary", Variable_);
    ("f", Variable_);
    ("result_dict", Variable_);
    ("kernel", Variable_);
    ("bounds_dict", Variable_);
    ("tmn", Variable_);
    ("bolfi", Variable_);
    ("iteration_accepted", Variable_);
    ("inst", Variable_);
    ("i", Variable_) ].

(** The builtins the script uses. *)
Definition builtins : namespace :=
  [ ("print", Function); ("range", Function); ("str", Function);
    ("float", Function); ("open", Function); ("__name__", Variable_) ].

Fixpoint lookup (g : namespace) (name : string) : option binding :=
  match g with
  | [] => None
  | (n, b) :: g' => if String.eqb n name then Some b else lookup g' name
  end.

(** Loading a global name. *)
Definition load_global (g : namespace) (name : string) : outcome binding :=
  match lookup g name with
  | Some b => Ok b
  | None =>
      match lookup builtins name with
      | Some b => Ok b
      | None => Raise (NameError name)
      end
  end.

(** Attribute access [obj.attr] on a name bound to the numpy module. *)
Definition numpy_attr (b : binding) (attr : string) : outcome unit :=
  match b with
  | Module "numpy" => Ok tt
  | _ => Raise (AttributeError attr)
  end.

(** ** Discrepancy function ([distance1], lines 63-79)

    Sequences are one-dimensional arrays; their elements are taken in [Q]. *)

Module Numpy.

Local Open Scope Q_scope.

(** [x - y] on one-dimensional arrays, with numpy's broadcasting of a
    length-one operand; other length mismatches raise. *)
Fixpoint zip_sub (x y : list Q) : list Q :=
  match x, y with
  | a :: x', b :: y' => (a - b) :: zip_sub x' y'
  | _, _ => []
  end.

Definition subtract (x y : list Q) : outcome (list Q) :=
  if Nat.eqb (List.length x) (List.length y) then Ok (zip_sub x y)
  else match x, y with
       | [a], _ => Ok (map (fun b => a - b) y)
       | _, [b] => Ok (map (fun a => a - b) x)
       | _, _ => Raise ValueError
       end.

Definition abs (v : list Q) : list Q := map Qabs v.

Definition sum (v : list Q) : Q := fold_right Qplus 0 v.

End Numpy.

Definition distance1 (g : namespace) (summary observed : list Q)
  : outcome (list Q) :=
  (let y := observed in
   let x := summary in
   (* dist = np.sum(np.abs(x - y)) *)
   np <~ load_global g "np";
   _ <~ numpy_attr np "sum";
   np' <~ load_global g "np";
   _ <~ numpy_attr np' "abs";
   d <~ Numpy.subtract x y;
   let dist := Numpy.sum (Numpy.abs d) in
   (* dist = np.array([dist]) *)
   np'' <~ load_global g "np";
   _ <~ numpy_attr np'' "array";
   let dist := [dist] in
   Ok dist)%py.

(** The sum of absolute elementwise differences, as the docstring of
    [distance1] words it (the L1 norm of the difference). *)
Fixpoint l1_norm_diff (x y : list Q) : Q :=
  match x, y with
  | a :: x', b :: y' => (Qabs (a - b) + l1_norm_diff x' y')%Q
  | _, _ => 0%Q
  end.

(** ** Model graph ([get_model], lines 81-123) and surrogate bounds *)

(** [elfi.Prior(dist, loc, scale, model=m, name=...)]: for ['uniform'] the
    two positional numbers are scipy's [loc] and [scale]. *)
Record prior : Type := mkPrior {
  prior_dist : string;
  prior_loc : Q;
  prior_scale : Q;
  prior_name : string
}.

(** The list [priors] after the seven [append]s of lines 94-100. *)
Definition priors : list prior :=
  [ mkPrior "uniform" 1.0 19 "Tf1";
    mkPrior "uniform" 1.0 19 "Tf2";
    mkPrior "uniform" 1.0e-3 44e-3 "tmin";
    mkPrior "uniform" 0.001 100 "nAr";
    mkPrior "uniform" 0.0 7.0 "log_walltime";
    mkPrior "uniform" 0.001 10 "alpha";
    mkPrior "uniform" 0.001 10 "beta" ].

(** Support of scipy's [uniform(loc, scale)]: the interval [loc, loc+scale]. *)
Definition support (p : prior) : Q * Q :=
  (prior_loc p, (prior_loc p + prior_scale p)%Q).

(** [bounds_dict] of lines 175-178, in source order. *)
Definition bounds_dict : list (string * (Q * Q)) :=
  [ ("Tf1", (1.0, 20)%Q);
    ("Tf2", (1.0, 20)%Q);
    ("tmin", (1.0e-3, 44e-3)%Q);
    ("nAr", (0.001, 100)%Q);
    ("log_walltime", (0.0, 7.0)%Q);
    ("alpha", (0.001, 10)%Q);
    ("beta", (0.001, 10)%Q) ].

Fixpoint dict_get {V} (d : list (string * V)) (k : string) : option V :=
  match d with
  | [] => None
  | (k', v) :: d' => if String.eqb k' k then Some v else dict_get d' k
  end.

(** Nodes of the ELFI graph built by [get_model]. *)
Inductive node : Type :=
| PriorNode (p : prior)
| SimulatorNode (name : string) (parents : list string)
| SummaryNode (name parent : string)
| DiscrepancyNode (name parent : string).

Definition ElfiModel := list node.

(** Python's [sorted] on strings: code-point order. *)
Fixpoint insert_sorted (s : string) (l : list string) : list string :=
  match l with
  | [] => [s]
  | t :: l' => if String.leb s t then s :: l else t :: insert_sorted s l'
  end.

Definition sorted (l : list string) : list string :=
  fold_right insert_sorted [] l.

(** [ElfiModel.parameter_names]: ELFI returns the names of the parameter
    (prior) nodes in alphabetical order, [sorted(...)]; the comments of
    lines 238-250 label the kernel dimensions in that order. *)
Definition parameter_names (m : ElfiModel) : list string :=
  sorted (flat_map (fun n => match n with
                             | PriorNode p => [prior_name p]
                             | _ => []
                             end) m).

(** The graph [get_model] returns: the seven priors, the simulator fed
    by all of them, the summary of the simulator and the discrepancy of
    the summary. *)
Definition model_graph : ElfiModel :=
  (map PriorNode priors ++
   [ SimulatorNode "CQf" (map prior_name priors);
     SummaryNode "IPsum" "CQf";
     DiscrepancyNode "d" "IPsum" ])%list.

(** ** The controller's external calls *)

(** A number handed to a library call: a number the script holds, or
    such a number divided by [bolfi.state['n_evidence']], the count that
    BOLFI keeps and the script reads when it computes the quotient. *)
Inductive quantity : Type :=
| number (q : Q)
| over_n_evidence (q : Q).

Inductive call : Type :=
| elfi_set_client (client : string)
| elfi_ElfiModel
| elfi_Prior (p : prior)
| h5py_File (path mode : string)
| h5_getitem (key : string)
| numpy_array
| elfi_Simulator (name : string)
| elfi_Summary (name : string)
| elfi_Discrepancy (name : string)
| elfi_Operation_log
| GPy_kern_RatQuad (input_dim : Z) (ARD : bool)
| lengthscale_constrain_positive
| power_constrain_bounded (lo hi : Q)
| GPyRegression_new (names : list string)
| elfi_BOLFI
| ModelPrior_new
| RandMaxVar_new
| bolfi_fit (n_evidence : Z)
| batches_cancel_pending
| batches_set_next_batch_index
| save_bolfi (fname : string)
| tmn_instance
| noise_variance_set (v : Q)
| noise_variance_fix
| inst_randomize
(** [inst.RatQuad.lengthscale[i] = v] *)
| lengthscale_setitem (i : Z) (v : quantity)
| inst_optimize
(** [kernel.lengthscale[[idx]].constrain_bounded(lo, hi)] *)
| lengthscale_constrain_bounded (idx : Z) (lo hi : Q)
| print (args : list string)
| batches_reset.

(** One entry of the run's trace: the call and whether it raised. *)
Record event : Type := mkEvent { ev_call : call; ev_raised : bool }.

Definition trace := list event.

(** The outside world decides, from everything that happened so far,
    whether the next external call raises. *)
Definition world := trace -> call -> bool.

(** The world in which nothing ever raises. *)
Definition calm : world := fun _ _ => false.

(** The script's mutable module-level variables and the trace so far. *)
Record frame : Type := mkFrame {
  tr : trace;
  var_i : Z;
  iteration_accepted : bool
}.

Definition initial_frame : frame := mkFrame [] 0 false.

Definition M (A : Type) : Type := frame -> outcome A * frame.

Definition ret {A} (a : A) : M A := fun fr => (Ok a, fr).

Definition bind {A B} (c : M A) (k : A -> M B) : M B := fun fr =>
  match c fr with
  | (Ok a, fr') => k a fr'
  | (Raise e, fr') => (Raise e, fr')
  | (OutOfFuel, fr') => (OutOfFuel, fr')
  end.

Declare Scope ctl_scope.
Delimit Scope ctl_scope with ctl.
Notation "x <- c ;; k" := (bind c (fun x => k))
  (at level 61, c at next level, right associativity) : ctl_scope.
Notation "c ;; k" := (bind c (fun _ => k))
  (at level 61, right associativity) : ctl_scope.

Definition lift {A} (r : outcome A) : M A := fun fr => (r, fr).

Definition set_i (v : Z) : M unit := fun fr =>
  (Ok tt, mkFrame (tr fr) v (iteration_accepted fr)).

Definition get_i : M Z := fun fr => (Ok (var_i fr), fr).

Definition set_iteration_accepted (b : bool) : M unit := fun fr =>
  (Ok tt, mkFrame (tr fr) (var_i fr) b).

(** [try: body except: handler] with a bare [except]: every exception is
    caught; the handler runs in the frame the body left behind. *)
Definition try_except (body handler : M unit) : M unit := fun fr =>
  match body fr with
  | (Raise _, fr') => handler fr'
  | r => r
  end.

(** [while iteration_accepted == False: body]; [fuel] bounds the number
    of rounds of the body, and the loop test comes first. *)
Fixpoint while_rounds (fuel : nat) (body : M unit) : M unit := fun fr =>
  match fuel with
  | O => (OutOfFuel, fr)
  | S fuel' =>
      match body fr with
      | (Ok _, fr') =>
          if iteration_accepted fr' then (Ok tt, fr')
          else while_rounds fuel' body fr'
      | r => r
      end
  end.

Definition while_not_accepted (fuel : nat) (body : M unit) : M unit := fun fr =>
  if iteration_accepted fr then (Ok tt, fr) else while_rounds fuel body fr.

(** [for i in xs: body]: the loop variable is the module-level [i]; each
    round assigns the next element, whatever the body did to [i]. *)
Fixpoint for_i (xs : list Z) (body : M unit) : M unit :=
  match xs with
  | [] => ret tt
  | x :: xs' => bind (set_i x) (fun _ => bind body (fun _ => for_i xs' body))
  end.

Definition range (n : nat) : list Z := map Z.of_nat (seq 0 n).

(** [str(n)] for an integer. *)
Definition str (n : Z) : string := NilZero.string_of_int (Z.to_int n).

(** [l[i]] on a Python list; a negative index counts from the end. *)
Definition getitem {A} (l : list A) (i : Z) : outcome A :=
  let j := if i <? 0 then i + Z.of_nat (List.length l) else i in
  if j <? 0 then Raise IndexError
  else match nth_error l (Z.to_nat j) with
       | Some a => Ok a
       | None => Raise IndexError
       end.

(** ** Search-loop controller ([__main__], lines 142-260) *)

Section Controller.

Variable w : world.

Local Open Scope ctl_scope.

(** An external call: the world decides whether it raises; either way
    the call is appended to the trace. *)
Definition ext (c : call) : M unit := fun fr =>
  let raised := w (tr fr) c in
  let fr' := mkFrame (tr fr ++ [mkEvent c raised])%list (var_i fr)
                     (iteration_accepted fr) in
  (if raised then Raise LibraryError else Ok tt, fr').

Fixpoint for_each {A} (xs : list A) (body : A -> M unit) : M unit :=
  match xs with
  | [] => ret tt
  | x :: xs' => body x ;; for_each xs' body
  end.

Definition get_model : M ElfiModel :=
  ext elfi_ElfiModel ;;
  for_each priors (fun p => ext (elfi_Prior p)) ;;
  ext (h5py_File "../experimental_data/IP_out.h5" "r") ;;
  ext (h5_getitem "IP_data") ;;
  ext numpy_array ;;
  ext (elfi_Simulator "CQf") ;;
  ext (elfi_Summary "IPsum") ;;
  ext (elfi_Discrepancy "d") ;;
  ret model_graph.

(** [bolfi.target_model.bounds]: the bounds dictionary turned into a
    list in the order of the parameter names given to [GPyRegression]
    (every parameter name has its entry in [bounds_dict]). *)
Fixpoint bounds_list (names : list string) : list (Q * Q) :=
  match names with
  | [] => []
  | n :: names' =>
      match dict_get bounds_dict n with
      | Some b => b :: bounds_list names'
      | None => bounds_list names'
      end
  end.

(** Lines 212-214 and 233-235:
    [for i in range(7): inst.RatQuad.lengthscale[i] = (bounds[i][1] -
    bounds[i][0]) / bolfi.state['n_evidence']]. *)
Definition seed_lengthscales (bounds : list (Q * Q)) : M unit :=
  for_i (range 7)
    (i <- get_i ;;
     b1 <- lift (getitem bounds i) ;;
     i <- get_i ;;
     b0 <- lift (getitem bounds i) ;;
     i <- get_i ;;
     ext (lengthscale_setitem i (over_n_evidence (snd b1 - fst b0)%Q))).

(** Lines 195-202. *)
Definition collect_initial (fuel : nat) (n_initial_evidence : Z) : M unit :=
  set_iteration_accepted false ;;
  while_not_accepted fuel
    (try_except
       (ext (bolfi_fit n_initial_evidence) ;;
        set_iteration_accepted true)
       (ext batches_cancel_pending ;;
        (* bolfi.batches._next_batch_index = batch_index+1 *)
        lift (load_global module_globals "batch_index") ;;
        ext batches_set_next_batch_index)).

(** Lines 225-253: re-tuning of the kernel hyperparameters after a
    snapshot, positive lengthscales in even rounds and bounded ones in
    odd rounds. *)
Definition retune (bounds : list (Q * Q)) : M unit :=
  ext tmn_instance ;;
  ext (noise_variance_set 1e-10) ;;
  ext noise_variance_fix ;;
  i <- get_i ;;
  if i mod 2 =? 0 then
    ext lengthscale_constrain_positive ;;
    ext inst_randomize ;;
    seed_lengthscales bounds ;;
    ext inst_optimize
  else
    ext (lengthscale_constrain_bounded 0 1e-3 1.0) ;;
    ext (lengthscale_constrain_bounded 1 1e-3 1.0) ;;
    ext (lengthscale_constrain_bounded 2 1e-3 0.5) ;;
    ext (lengthscale_constrain_bounded 3 1e-3 0.5) ;;
    ext (lengthscale_constrain_bounded 4 1e-3 0.1) ;;
    ext (lengthscale_constrain_bounded 5 1e-3 1.0) ;;
    ext (lengthscale_constrain_bounded 6 1e-6 1e-3) ;;
    ext inst_randomize ;;
    ext inst_optimize.

(** Name of the snapshot of a refinement round. *)
Definition snapshot_name (n : Z) : string :=
  "BOLFI_7D_at_" ++ str n ++ ".pkl".

(** Lines 223-254: the body of the [try] of one refinement attempt. *)
Definition refine_attempt (bounds : list (Q * Q)) : M unit :=
  i <- get_i ;;
  ext (bolfi_fit (150 + 50 * i)) ;;
  i <- get_i ;;
  ext (save_bolfi (snapshot_name (150 + 50 * i))) ;;
  retune bounds ;;
  set_iteration_accepted true.

(** Lines 255-260: the handler of the refinement [try]. *)
Definition refine_handler : M unit :=
  ext (print ["Exception!"]) ;;
  ext batches_reset.

(** Lines 222-260: the [try] statement of a refinement round. *)
Definition refine_try (bounds : list (Q * Q)) : M unit :=
  try_except (refine_attempt bounds) refine_handler.

(** Lines 219-260: one round of the outer [for]. *)
Definition refine_round (fuel : nat) (bounds : list (Q * Q)) : M unit :=
  set_iteration_accepted false ;;
  i <- get_i ;;
  ext (print ["i: "; str i]) ;;
  while_not_accepted fuel (refine_try bounds).

(** Lines 218-260. *)
Definition refine (fuel : nat) (bounds : list (Q * Q)) : M unit :=
  for_i (range 20) (refine_round fuel bounds).

(** Lines 150-188: the model, the kernel, the surrogate and BOLFI;
    yields [bolfi.target_model.bounds]. *)
Definition setup : M (list (Q * Q)) :=
  ext (elfi_set_client "multiprocessing") ;;
  m <- get_model ;;
  ext elfi_Operation_log ;;
  ext (GPy_kern_RatQuad 7 true) ;;
  ext lengthscale_constrain_positive ;;
  ext (power_constrain_bounded 1e-10 0.03) ;;
  ext (GPyRegression_new (parameter_names m)) ;;
  let bounds := bounds_list (parameter_names m) in
  ext elfi_BOLFI ;;
  ext ModelPrior_new ;;
  ext RandMaxVar_new ;;
  ret bounds.

(** Lines 208-215: the initial fit of the surrogate. *)
Definition initial_fit (bounds : list (Q * Q)) : M unit :=
  ext tmn_instance ;;
  ext (noise_variance_set 1e-10) ;;
  ext noise_variance_fix ;;
  ext inst_randomize ;;
  seed_lengthscales bounds ;;
  ext inst_optimize.

Definition initial_snapshot_name (n : Z) : string :=
  "BOLFI_7D_initial_" ++ str n ++ ".pkl".

(** The [__main__] block; [fuel] bounds the rounds of each [while]. *)
Definition main (fuel : nat) : M unit :=
  bounds <- setup ;;
  let n_initial_evidence := 150 in
  collect_initial fuel n_initial_evidence ;;
  ext (save_bolfi (initial_snapshot_name n_initial_evidence)) ;;
  initial_fit bounds ;;
  refine fuel bounds.

Definition run (fuel : nat) : outcome unit * frame := main fuel initial_frame.

End Controller.

(** *** Reading a trace *)

(** Snapshot files written, in order: the names of the [save_bolfi]
    calls that returned. *)
Definition snapshots (t : trace) : list string :=
  flat_map (fun e => match ev_call e, ev_raised e with
                     | save_bolfi f, false => [f]
                     | _, _ => []
                     end) t.

(** Targets of all [bolfi.fit] calls, in order. *)
Definition fit_targets (t : trace) : list Z :=
  flat_map (fun e => match ev_call e with
                     | bolfi_fit n => [n]
                     | _ => []
                     end) t.

(** The calls of a trace. *)
Definition calls (t : trace) : list call := map ev_call t.

(** The evidence-count targets of the checkpoints of a trace: for every
    snapshot written, the target of the last [bolfi.fit] that returned
    before it. *)
Fixpoint checkpoints_from (last : option Z) (t : trace) : list Z :=
  match t with
  | [] => []
  | e :: t' =>
      match ev_call e, ev_raised e with
      | bolfi_fit n, false => checkpoints_from (Some n) t'
      | save_bolfi _, false =>
          match last with
          | Some n => n :: checkpoints_from last t'
          | None => checkpoints_from last t'
          end
      | _, _ => checkpoints_from last t'
      end
  end.

Definition checkpoints (t : trace) : list Z := checkpoints_from None t.

(** ** Simulator adapter ([sim_fn], lines 28-61)

    Floating-point numbers are kept abstract: the adapter only moves them
    around, except for one call of [numpy.exp].  The simulation is an
    external routine acting on the outside state (its scratch files). *)

Section SimulatorAdapter.

Variable float : Type.
(** [float(numpy.exp(x))] *)
Variable numpy_exp : float -> float.
(** [str(float(x))] *)
Variable float_str : float -> string.
(** the literal [1e10] *)
Variable lit_1e10 : float.
Variable RandomState : Type.
Variable disk : Type.

(** Keyword arguments of [run_CQ_fluid_simulation_vTf], in call order. *)
Record sim_kwargs : Type := mkKwargs {
  kw_Tf1 : float;
  kw_Tf2 : float;
  kw_t_T_f : float;
  kw_nAr_frac : float;
  kw_walltime : float;
  kw_alpha : float;
  kw_beta : float;
  kw_Nre : float;
  kw_inputfilename : string;
  kw_outputfilename : string;
  kw_initoutfile : string;
  kw_CQfluidoutfile : string
}.

(** Arrays of at most two dimensions. *)
Inductive ndarray : Type :=
| nd0 (x : float)
| nd1 (v : list float)
| nd2 (rows : list (list float)).

(** What the adapter reads from the returned file:
    [file1['grid']['t'][:]] and [file1['eqsys']['I_p'][:]]. *)
Record h5out : Type := mkH5 {
  grid_t : list float;
  eqsys_I_p : ndarray
}.

Variable run_CQ_fluid_simulation_vTf :
  disk -> sim_kwargs -> outcome h5out * disk.

(** [numpy.squeeze]: drop the axes of length one. *)
Definition squeeze (a : ndarray) : ndarray :=
  match a with
  | nd0 x => nd0 x
  | nd1 [x] => nd0 x
  | nd1 v => nd1 v
  | nd2 [[x]] => nd0 x
  | nd2 [row] => nd1 row
  | nd2 rows =>
      if forallb (fun r => Nat.eqb (List.length r) 1) rows
      then nd1 (List.concat rows) else nd2 rows
  end.

Fixpoint zip_cons (r : list float) (cols : list (list float))
  : list (list float) :=
  match r, cols with
  | [], _ => []
  | x :: r', [] => [x] :: zip_cons r' []
  | x :: r', c :: cols' => (x :: c) :: zip_cons r' cols'
  end.

(** [numpy.transpose]: the identity below two dimensions. *)
Definition transpose (a : ndarray) : ndarray :=
  match a with
  | nd2 rows => nd2 (fold_right zip_cons [] rows)
  | _ => a
  end.

(** [numpy.array([a, b])]: two one-dimensional arrays of one length make
    a two-row array; operands of different shapes are refused. *)
Definition array2 (a b : ndarray) : outcome ndarray :=
  match a, b with
  | nd1 u, nd1 v =>
      if Nat.eqb (List.length u) (List.length v) then Ok (nd2 [u; v])
      else Raise ValueError
  | nd0 x, nd0 y => Ok (nd1 [x; y])
  | _, _ => Raise ValueError
  end.

(** [float(a)] on an array: only size-one arrays convert. *)
Definition float_of_array (a : list float) : outcome float :=
  match a with
  | [x] => Ok x
  | _ => Raise TypeError
  end.

(** The arguments of the simulator call, evaluated in source order. *)
Definition sim_fn_kwargs (Tf1 Tf2 tmin nAr log_walltime alpha beta : list float)
  : outcome sim_kwargs :=
  (a1 <~ getitem Tf1 0;
   a2 <~ getitem Tf2 0;
   a3 <~ getitem tmin 0;
   a4 <~ getitem nAr 0;
   lw <~ getitem log_walltime 0;
   let a5 := numpy_exp lw in
   a6 <~ getitem alpha 0;
   a7 <~ getitem beta 0;
   f1 <~ float_of_array Tf1;
   f2 <~ float_of_array Tf1;
   Ok (mkKwargs a1 a2 a3 a4 a5 a6 a7 lit_1e10
         "bolfi_7D_runs/test1i.h5"
         "bolfi_7D_runs/test1o.h5"
         ("bolfi_7D_runs/" ++ float_str f1 ++ "init_out.h5")
         ("bolfi_7D_runs/" ++ float_str f2 ++ "CQ_fluid_out.h5")))%py.

Definition sim_fn (d : disk)
    (Tf1 Tf2 tmin nAr log_walltime alpha beta : list float)
    (batch_size : Z) (random_state : option RandomState)
  : outcome ndarray * disk :=
  match sim_fn_kwargs Tf1 Tf2 tmin nAr log_walltime alpha beta with
  | Ok kw =>
      match run_CQ_fluid_simulation_vTf d kw with
      | (Ok file1, d') =>
          let timev := nd1 (grid_t file1) in
          let currentv := eqsys_I_p file1 in
          let currentv := squeeze currentv in
          (array2 (transpose timev) (transpose currentv), d')
      | (Raise e, d') => (Raise e, d')
      | (OutOfFuel, d') => (OutOfFuel, d')
      end
  | Raise e => (Raise e, d)
  | OutOfFuel => (OutOfFuel, d)
  end.

End SimulatorAdapter.

Arguments nd0 {float} x.
Arguments nd1 {float} v.
Arguments nd2 {float} rows.
Arguments mkH5 {float} grid_t eqsys_I_p.
Arguments grid_t {float} h.
Arguments eqsys_I_p {float} h.
Arguments mkKwargs {float}.
Arguments kw_walltime {float} s.
Arguments squeeze {float} a.
Arguments sim_fn {float} numpy_exp float_str lit_1e10 {RandomState disk}
  run_CQ_fluid_simulation_vTf d Tf1 Tf2 tmin nAr log_walltime alpha beta
  batch_size random_state.

(** ** Optimum extractor ([find_optimum_value], lines 125-140) *)

Section OptimumExtractor.

Variable float : Type.
(** What a run of the optimizer draws from when no seed fixes it. *)
Variable entropy : Type.

(** Arguments of [scipy.optimize.differential_evolution]. *)
Record de_args : Type := mkDE {
  de_func : list float -> list float;
  de_bounds : list (float * float);
  de_maxiter : Z;
  de_polish : bool;
  de_init : string;
  de_popsize : Z;
  de_seed : option Z
}.

Record OptimizeResult : Type := mkResult {
  res_x : list float;
  res_fun : float
}.

Variable differential_evolution : entropy -> de_args -> outcome OptimizeResult.

(** [a.ravel()] on a two-dimensional array. *)
Definition ravel (a : list (list float)) : list float := List.concat a.

Definition find_optimum_value (e : entropy)
    (target_model : list float -> list (list float))
    (bounds : list (float * float)) (starting_points : Z)
  : outcome (list float) :=
  (let fun_1d := fun x => ravel (target_model x) in
   result <~ differential_evolution e
               (mkDE fun_1d bounds 1000 true "latinhypercube"
                     starting_points (Some 0));
   let x_min := res_x result in
   Ok x_min)%py.

(** The default [starting_points=100]. *)
Definition find_optimum_value_default (e : entropy)
    (target_model : list float -> list (list float))
    (bounds : list (float * float)) : outcome (list float) :=
  find_optimum_value e target_model bounds 100.

End OptimumExtractor.

Arguments mkDE {float}.
Arguments de_func {float} d.
Arguments de_bounds {float} d.
Arguments de_seed {float} d.
Arguments mkResult {float}.
Arguments res_x {float} o.
Arguments ravel {float} a.

(** ** Definitions used to state the properties *)

(** Does the support of a prior coincide with the bound interval the
    surrogate gets for the same parameter? *)
Definition support_matches_bounds (p : prior) : bool :=
  match dict_get bounds_dict (prior_name p) with
  | Some (lo, hi) =>
      Qeq_bool (fst (support p)) lo && Qeq_bool (snd (support p)) hi
  | None => false
  end.

(** Is [x] in the closed interval [b]? *)
Definition in_interval (b : Q * Q) (x : Q) : bool :=
  Qle_bool (fst b) x && Qle_bool x (snd b).

Definition width (b : Q * Q) : Q := (snd b - fst b)%Q.

(** The schedule in the specification's words: [150 + 50*i] for
    [i = 0..20], that is 150, 200, ..., 1150. *)
Definition claimed_schedule : list Z :=
  map (fun i => 150 + 50 * i) (range 21).

(** The world in which the [k]-th call (counting from 0) among those
    selected by [p] raises, and nothing else does. *)
Definition raise_on (p : call -> bool) (k : nat) : world := fun t c =>
  p c && Nat.eqb (List.length (filter p (calls t))) k.

Definition is_fit (c : call) : bool :=
  match c with bolfi_fit _ => true | _ => false end.

Definition is_optimize (c : call) : bool :=
  match c with inst_optimize => true | _ => false end.

(** Position of a name in a list of names. *)
Fixpoint index_of (s : string) (l : list string) : option Z :=
  match l with
  | [] => None
  | t :: l' => if String.eqb t s then Some 0
               else option_map Z.succ (index_of s l')
  end.

(** The lengthscale intervals set by the calls of a trace, by dimension. *)
Definition lengthscale_bounds (cs : list call) : list (Z * (Q * Q)) :=
  flat_map (fun c => match c with
                     | lengthscale_constrain_bounded idx lo hi =>
                         [(idx, (lo, hi))]
                     | _ => []
                     end) cs.

Fixpoint assoc_Z {V} (d : list (Z * V)) (k : Z) : option V :=
  match d with
  | [] => None
  | (k', v) :: d' => if k' =? k then Some v else assoc_Z d' k
  end.

Definition is_seeding (c : call) : bool :=
  match c with lengthscale_setitem _ _ => true | _ => false end.

(** The frame after an external call. *)
Definition push (c : call) (raised : bool) (fr : frame) : frame :=
  mkFrame (tr fr ++ [mkEvent c raised])%list (var_i fr) (iteration_accepted fr).

(** A computation only appends to the trace, and only calls in [P]. *)
Definition emits (P : call -> Prop) {A} (m : M A) : Prop :=
  forall fr, exists t,
    tr (snd (m fr)) = (tr fr ++ t)%list /\ Forall P (calls t).

(** A computation leaves the loop variable and the acceptance flag alone. *)
Definition keeps_vars {A} (m : M A) : Prop :=
  forall fr, var_i (snd (m fr)) = var_i fr /\
             iteration_accepted (snd (m fr)) = iteration_accepted fr.

Definition not_batch_index (c : call) : Prop :=
  c <> batches_set_next_batch_index.

Definition is_save (c : call) : bool :=
  match c with save_bolfi _ => true | _ => false end.

(** An event of a run that only fails where a retry repeats the same
    work: every call returned, or the call that raised is [bolfi.fit] or
    [save_bolfi]. *)
Definition benign (e : event) : bool :=
  negb (ev_raised e) || is_fit (ev_call e) || is_save (ev_call e).

Definition quiet (t : trace) : Prop := Forall (fun e => ev_raised e = false) t.

(** The file names given to [save_bolfi], in order, whether the call
    returned or raised. *)
Definition save_calls (t : trace) : list string :=
  flat_map (fun e => match ev_call e with
                     | save_bolfi f => [f]
                     | _ => []
                     end) t.

(** An event of a run in which only [bolfi.fit] fails: the call
    returned, or the call that raised is [bolfi.fit]. *)
Definition fit_failure (e : event) : bool :=
  negb (ev_raised e) || is_fit (ev_call e).

(** The calls that neither collect evidence nor write a snapshot. *)
Definition tuning (c : call) : Prop := is_fit c = false /\ is_save c = false.

(** Straight-line code: it only appends calls in [P] to the trace, it
    returns exactly when all its calls returned, and it raises only
    because one of its calls raised. *)
Definition straight (P : call -> Prop) {A} (m : M A) : Prop :=
  forall fr, exists t,
    tr (snd (m fr)) = (tr fr ++ t)%list /\ Forall P (calls t) /\
    ((exists a, fst (m fr) = Ok a) /\ quiet t \/
     (exists e, fst (m fr) = Raise e) /\
     Exists (fun e => ev_raised e = true) t).

(** [bolfi.target_model.bounds] as [setup] computes it. *)
Definition target_bounds : list (Q * Q) :=
  bounds_list (parameter_names model_graph).

(** The seeding loop of lines 212-214 and 233-235 on [target_bounds],
    unrolled. *)
Definition seeds (w : world) : M unit :=
  for_each (combine (range 7) target_bounds)
    (fun kb => bind (set_i (fst kb))
       (fun _ => ext w (lengthscale_setitem (fst kb)
                          (over_n_evidence
                             (snd (snd kb) - fst (snd kb))%Q)))).

(** The last evidence target reached at the end of a trace. *)
Fixpoint last_fit (last : option Z) (t : trace) : option Z :=
  match t with
  | [] => last
  | e :: t' =>
      match ev_call e, ev_raised e with
      | bolfi_fit n, false => last_fit (Some n) t'
      | _, _ => last_fit last t'
      end
  end.

(** A stretch of trace that writes the snapshots of the rounds [xs], one
    each and in order, each at the target of its round. *)
Definition covers (xs : list Z) (t : trace) : Prop :=
  snapshots t = map (fun j => snapshot_name (150 + 50 * j)) xs /\
  forall last, checkpoints_from last t = map (fun j => 150 + 50 * j) xs.

(** The calls of one refinement attempt with odd [i] in which every
    call returns (lines 223-227 and 238-253). *)
Definition odd_round_calls (i : Z) : list call :=
  [ bolfi_fit (150 + 50 * i);
    save_bolfi (snapshot_name (150 + 50 * i));
    tmn_instance;
    noise_variance_set 1e-10;
    noise_variance_fix;
    lengthscale_constrain_bounded 0 1e-3 1.0;
    lengthscale_constrain_bounded 1 1e-3 1.0;
    lengthscale_constrain_bounded 2 1e-3 0.5;
    lengthscale_constrain_bounded 3 1e-3 0.5;
    lengthscale_constrain_bounded 4 1e-3 0.1;
    lengthscale_constrain_bounded 5 1e-3 1.0;
    lengthscale_constrain_bounded 6 1e-6 1e-3;
    inst_randomize;
    inst_optimize ].

(** The events before the first call that raised, and those after it. *)
Fixpoint before_first_raise (t : trace) : trace :=
  match t with
  | [] => []
  | e :: t' => if ev_raised e then [] else e :: before_first_raise t'
  end.

Fixpoint after_first_raise (t : trace) : trace :=
  match t with
  | [] => []
  | e :: t' => if ev_raised e then t' else after_first_raise t'
  end.

Definition first_raise (t : trace) : option call :=
  match skipn (List.length (before_first_raise t)) t with
  | e :: _ => Some (ev_call e)
  | [] => None
  end.

(** Boxes and minimizers, over an abstract order on floats. *)
Section Boxes.

Variable float : Type.
Variable le : float -> float -> Prop.

Definition in_box (bounds : list (float * float)) (x : list float) : Prop :=
  Forall2 (fun b xi => le (fst b) xi /\ le xi (snd b)) bounds x.

(** [x] is a point of the box at which the one-element array [f x] is
    least. *)
Definition minimizes (f : list float -> list float)
    (bounds : list (float * float)) (x : list float) : Prop :=
  in_box bounds x /\
  forall y a b, in_box bounds y -> f x = [a] -> f y = [b] -> le a b.

End Boxes.

Arguments in_box {float} le bounds x.
Arguments minimizes {float} le f bounds x.

(** ** Definitions used to state the properties of whole runs *)

Local Open Scope list_scope.

(** The event of a call that returned. *)
Definition returned (c : call) : event := mkEvent c false.

(** Code without handlers and loops on flags: it returns when all its
    calls returned, and otherwise stops at the first call that raised,
    with the exception of that call. *)
Definition halting {A} (m : M A) : Prop :=
  forall fr, exists t,
    tr (snd (m fr)) = tr fr ++ t /\
    ((exists a, fst (m fr) = Ok a) /\ quiet t \/
     fst (m fr) = Raise LibraryError /\
     exists t' c, t = t' ++ [mkEvent c true] /\ quiet t').

(** The calls of lines 150-188, in order. *)
Definition setup_calls : list call :=
  [ elfi_set_client "multiprocessing"; elfi_ElfiModel ]
  ++ map elfi_Prior priors
  ++ [ h5py_File "../experimental_data/IP_out.h5" "r";
       h5_getitem "IP_data";
       numpy_array;
       elfi_Simulator "CQf";
       elfi_Summary "IPsum";
       elfi_Discrepancy "d";
       elfi_Operation_log;
       GPy_kern_RatQuad 7 true;
       lengthscale_constrain_positive;
       power_constrain_bounded 1e-10 0.03;
       GPyRegression_new (parameter_names model_graph);
       elfi_BOLFI;
       ModelPrior_new;
       RandMaxVar_new ].

(** The seven seeding assignments of lines 212-214 and 233-235: dimension
    [d] gets the width of the bounds of the [d]-th parameter name,
    divided by [bolfi.state['n_evidence']]. *)
Definition seed_calls : list call :=
  map (fun kb => lengthscale_setitem (fst kb)
                   (over_n_evidence (width (snd kb))))
      (combine (range 7) target_bounds).

(** The calls of lines 208-215. *)
Definition initial_fit_calls : list call :=
  [ tmn_instance; noise_variance_set 1e-10; noise_variance_fix;
    inst_randomize ]
  ++ seed_calls ++ [ inst_optimize ].

(** Everything the script calls before the refinement loop. *)
Definition prelude_calls : list call :=
  setup_calls
  ++ [ bolfi_fit 150; save_bolfi (initial_snapshot_name 150) ]
  ++ initial_fit_calls.

(** [len(l) == 0] *)
Definition is_empty {A} (l : list A) : bool :=
  match l with [] => true | _ => false end.

(** The outcome without its value. *)
Definition forget {A} (o : outcome A) : outcome unit :=
  match o with
  | Ok _ => Ok tt
  | Raise e => Raise e
  | OutOfFuel => OutOfFuel
  end.

(** A computation started with [J] on the loop variable appends a
    stretch [t] to the trace with [Q outcome t], and leaves [J] on the
    loop variable. *)
Definition post (J : Z -> Prop) (Q : outcome unit -> trace -> Prop)
    {A} (m : M A) : Prop :=
  forall fr, J (var_i fr) ->
    exists t, tr (snd (m fr)) = tr fr ++ t /\
              Q (forget (fst (m fr))) t /\
              J (var_i (snd (m fr))).

(** No condition on the loop variable. *)
Definition any_i (_ : Z) : Prop := True.

(** The calls of [print] (lines 220 and 259). *)
Definition is_print (c : call) : bool :=
  match c with print _ => true | _ => false end.

(** The two calls of the handler of lines 255-260, both returned. *)
Definition handler_calls : list call := [print ["Exception!"]; batches_reset].

(** Is [e] the handler's call [c], and did it return? *)
Definition event_eqb_returned (c : call) (e : event) : bool :=
  negb (ev_raised e) &&
  match c, ev_call e with
  | print a, print b => if list_eq_dec string_dec a b then true else false
  | batches_reset, batches_reset => true
  | _, _ => false
  end.

(** Every call that raised is followed at once by the two calls of the
    refinement handler, and both returned. *)
Fixpoint handled (t : trace) : bool :=
  match t with
  | [] => true
  | e :: t' =>
      (if ev_raised e then
         match t' with
         | e1 :: e2 :: _ =>
             event_eqb_returned (print ["Exception!"]) e1 &&
             event_eqb_returned batches_reset e2
         | _ => false
         end
       else true) && handled t'
  end.

(** Number of calls that raised. *)
Definition raised_count (t : trace) : nat :=
  List.length (filter ev_raised t).

(** The loop variable is the number of one of the 20 rounds. *)
Definition in_rounds (i : Z) : Prop := 0 <= i <= 19.

(** A call that asks for evidence asks for [150 + 50*k] points, and a
    call that writes a snapshot writes the initial one or the one of a
    round [k], for one of the 20 rounds [k]. *)
Definition on_schedule (c : call) : Prop :=
  match c with
  | bolfi_fit n => exists k, in_rounds k /\ n = 150 + 50 * k
  | save_bolfi s =>
      s = initial_snapshot_name 150 \/
      exists k, in_rounds k /\ s = snapshot_name (150 + 50 * k)
  | _ => True
  end.

(** Every call of a stretch of trace is on the schedule. *)
Definition scheduled (_ : outcome unit) (t : trace) : Prop :=
  Forall on_schedule (calls t).

(** Does the snapshot file name [s] carry the evidence target [n]? *)
Definition names_target (s : string) (n : Z) : bool :=
  String.eqb s (snapshot_name n) || String.eqb s (initial_snapshot_name n).

(** A [save_bolfi] call comes right after a [bolfi.fit] call that
    returned, and its file name carries the target of that fit. *)
Definition save_follows_fit (prev : option event) (e : event) : bool :=
  match ev_call e with
  | save_bolfi s =>
      match prev with
      | Some p =>
          match ev_call p, ev_raised p with
          | bolfi_fit n, false => names_target s n
          | _, _ => false
          end
      | None => false
      end
  | _ => true
  end.

(** Every [save_bolfi] call of [t] follows its fit, [prev] being the
    event before [t]. *)
Fixpoint paired_from (prev : option event) (t : trace) : bool :=
  match t with
  | [] => true
  | e :: t' => save_follows_fit prev e && paired_from (Some e) t'
  end.

(** Every [save_bolfi] call of a stretch of trace follows its fit
    within the stretch. *)
Definition paired (_ : outcome unit) (t : trace) : Prop :=
  paired_from None t = true.

(** The stretch of trace of a refinement attempt that failed and whose
    handler returned: calls that returned, the call [c] that raised, and
    the two calls of the handler. *)
Definition caught_attempt (t : trace) : Prop :=
  exists t' c,
    quiet t' /\ t = t' ++ mkEvent c true :: map returned handler_calls.

(** In a stretch of a run that returned, every exception was handled. *)
Definition all_handled (o : outcome unit) (t : trace) : Prop :=
  o = Ok tt -> handled t = true.

(** A stretch of a run that went out of fuel holds [n] calls that raised. *)
Definition spun (n : nat) (o : outcome unit) (t : trace) : Prop :=
  o = OutOfFuel -> (n <= raised_count t)%nat.

(** A stretch of a run that ended with an exception ends with a call of
    [print] or of [bolfi.batches.reset] that raised. *)
Definition died_in_handler (o : outcome unit) (t : trace) : Prop :=
  forall e, o = Raise e ->
    e = LibraryError /\
    exists t' c, t = t' ++ [mkEvent c true] /\
                 (is_print c = true \/ c = batches_reset).

(** The calls of one refinement attempt with even [i] in which every
    call returns (lines 223-236). *)
Definition even_round_calls (i : Z) : list call :=
  [ bolfi_fit (150 + 50 * i);
    save_bolfi (snapshot_name (150 + 50 * i));
    tmn_instance;
    noise_variance_set 1e-10;
    noise_variance_fix;
    lengthscale_constrain_positive;
    inst_randomize ]
  ++ seed_calls ++ [ inst_optimize ].

(** The stretch of trace of an attempt whose fit raised at once. *)
Definition failed_fit (n : Z) : trace :=
  mkEvent (bolfi_fit n) true :: map returned handler_calls.

(** Does the call [c] seed dimension [d] with a number equal to [q]
    divided by [bolfi.state['n_evidence']]? *)
Definition seeds_dimension (c : call) (dq : Z * Q) : Prop :=
  exists r, c = lengthscale_setitem (fst dq) (over_n_evidence r) /\
            (r == snd dq)%Q.

(** A stretch of trace without a call of [bolfi.fit]. *)
Definition no_fit (_ : outcome unit) (t : trace) : Prop := fit_targets t = [].

(** Number of calls of [bolfi.fit], whether they returned or raised. *)
Definition fit_count (t : trace) : nat := List.length (fit_targets t).

(** A computation leaves the acceptance flag alone. *)
Definition keeps_flag {A} (m : M A) : Prop :=
  forall fr, iteration_accepted (snd (m fr)) = iteration_accepted fr.

(** * Properties *)

Local Open Scope list_scope.

(** ** Discrepancy function *)

Lemma zip_sub_l1 (x y : list Q) :
  (Numpy.sum (Numpy.abs (Numpy.zip_sub x y)) == l1_norm_diff x y)%Q.
Proof.
  revert y; induction x as [|a x IH]; intros [|b y];
    cbn [Numpy.zip_sub l1_norm_diff]; try reflexivity.
  unfold Numpy.sum, Numpy.abs in IH |- *. cbn [map fold_right].
  rewrite IH. reflexivity.
Qed.

Lemma l1_norm_diff_nonneg (x y : list Q) : (0 <= l1_norm_diff x y)%Q.
Proof.
  revert y; induction x as [|a x IH]; intros [|b y]; cbn [l1_norm_diff];
    try apply Qle_refl.
  apply (Qle_trans _ (0 + 0)%Q); [discriminate|].
  apply Qplus_le_compat; [apply Qabs_nonneg | apply IH].
Qed.

Lemma l1_norm_diff_same (x : list Q) : (l1_norm_diff x x == 0)%Q.
Proof.
  induction x as [|a x IH]; cbn [l1_norm_diff]; [reflexivity|].
  rewrite IH. setoid_replace (a - a)%Q with 0%Q by ring. reflexivity.
Qed.

(** Had the module bound [np] to numpy, [distance1] would return the
    one-element array holding the L1 distance of equal-length inputs. *)
Lemma distance1_when_np_bound (g : namespace) (x y : list Q) :
  lookup g "np" = Some (Module "numpy") ->
  List.length x = List.length y ->
  exists d, distance1 g x y = Ok [d] /\ (d == l1_norm_diff x y)%Q.
Proof.
  intros Hnp Hlen. unfold distance1, load_global. rewrite Hnp. simpl.
  unfold Numpy.subtract. rewrite Hlen, Nat.eqb_refl. simpl.
  eexists; split; [reflexivity | apply zip_sub_l1].
Qed.

(** C1.  In the module as written the name [np] is bound nowhere (numpy is
    imported under the name [numpy]), so every call of [distance1] raises
    NameError instead of returning the one-element array with the sum of
    absolute differences; shown for all inputs, and at the identical
    pair ([1.0, 2.0], [1.0, 2.0]) where the contract promises [0]. *)
Theorem distance1_raises_NameError :
  (forall summary observed,
      distance1 module_globals summary observed = Raise (NameError "np")) /\
  distance1 module_globals [1.0; 2.0]%Q [1.0; 2.0]%Q <> Ok [0%Q].
Proof.
  split; [intros; reflexivity | discriminate].
Qed.

(** ** Priors against surrogate bounds *)

(** C10 as stated fails: [nAr] is not [tmin], yet the support of its
    prior, [0.001, 100.001], is not its bound interval (0.001, 100); so
    it is not true that all parameters but [tmin] agree. *)
Lemma six_of_seven_agree_fails :
  ~ (forall p, In p priors -> prior_name p <> "tmin" ->
               support_matches_bounds p = true).
Proof.
  intros H.
  specialize (H (mkPrior "uniform" 0.001 100 "nAr")).
  assert (Hin : In (mkPrior "uniform" 0.001 100 "nAr") priors)
    by (simpl; tauto).
  specialize (H Hin ltac:(discriminate)).
  vm_compute in H. discriminate.
Qed.

(** C10, amended.  The prior support equals the surrogate bound for
    exactly three parameters, [Tf1], [Tf2] and [log_walltime]; for
    [tmin], [nAr], [alpha] and [beta] the lower endpoints agree and the
    upper endpoint of the support, [loc + scale], lies above the upper
    bound.  For [tmin] the support is [1e-3, 45e-3] against the bound
    (1e-3, 44e-3), and 0.0445 is a value the prior can propose outside
    the surrogate's box. *)
Theorem prior_support_vs_bounds :
  map prior_name (filter support_matches_bounds priors)
    = ["Tf1"; "Tf2"; "log_walltime"] /\
  map prior_name (filter (fun p => negb (support_matches_bounds p)) priors)
    = ["tmin"; "nAr"; "alpha"; "beta"] /\
  (forall p, In p priors -> support_matches_bounds p = false ->
     exists lo hi, dict_get bounds_dict (prior_name p) = Some (lo, hi) /\
                   (fst (support p) == lo)%Q /\ (hi < snd (support p))%Q) /\
  (exists p, In p priors /\ prior_name p = "tmin" /\
     (fst (support p) == 1.0e-3)%Q /\ (snd (support p) == 45e-3)%Q /\
     dict_get bounds_dict "tmin" = Some (1.0e-3, 44e-3)%Q /\
     in_interval (support p) 0.0445 = true /\
     in_interval (1.0e-3, 44e-3)%Q 0.0445 = false).
Proof.
  split; [reflexivity|]. split; [reflexivity|]. split.
  - intros p Hin Hno. simpl in Hin.
    repeat (destruct Hin as [<-|Hin]; [try discriminate Hno|]);
      try contradiction;
      (do 2 eexists; split; [reflexivity|]; split; vm_compute; reflexivity).
  - exists (mkPrior "uniform" 1.0e-3 44e-3 "tmin").
    repeat split; try reflexivity; simpl; tauto.
Qed.

(** ** Search-loop controller: the checkpoint schedule *)

(** When nothing raises, one round of each [while] is enough. *)
Lemma calm_run_fuel (fuel : nat) : run calm (S fuel) = run calm 1.
Proof. vm_compute. reflexivity. Qed.

(** C2 as stated fails on the run in which nothing raises: the second
    checkpoint is again at 150 evidence points and not at 200, the
    sequence is not strictly increasing, and it never reaches 1150. *)
Lemma schedule_as_claimed_fails :
  let cps := checkpoints (tr (snd (run calm 1))) in
  cps <> claimed_schedule /\
  nth 1 cps 0 = 150 /\
  nth 1 cps 0 <> 150 + 50 * (2 - 1) /\
  ~ StronglySorted Z.lt cps /\
  ~ In 1150 cps.
Proof.
  vm_compute. repeat split; try discriminate.
  - intros H. inversion H as [|? ? _ Hall]; subst.
    inversion Hall as [|? ? Hlt _]; subst. discriminate Hlt.
  - intros H. repeat (destruct H as [H|H]; [discriminate H|]). exact H.
Qed.

(** ** Search-loop controller: what every run does *)

Section ControllerFacts.

Variable w : world.

Lemma ext_cases (c : call) (fr : frame) :
  ext w c fr = (Ok tt, push c false fr) \/
  ext w c fr = (Raise LibraryError, push c true fr).
Proof. unfold ext, push. destruct (w (tr fr) c); auto. Qed.

Lemma bind_Ok {A B} (c : M A) (k : A -> M B) (fr : frame) (b : B) :
  fst (bind c k fr) = Ok b ->
  exists a, fst (c fr) = Ok a /\ bind c k fr = k a (snd (c fr)).
Proof.
  unfold bind. destruct (c fr) as [[a|e|] fr']; simpl; try discriminate.
  intros _. exists a. auto.
Qed.

(** *** Traces only grow *)

Section Emits.

Variable P : call -> Prop.

Lemma emits_ret {A} (a : A) : emits P (ret a).
Proof. intros fr. exists []. simpl. rewrite app_nil_r. auto. Qed.

Lemma emits_lift {A} (r : outcome A) : emits P (lift r).
Proof. intros fr. exists []. simpl. rewrite app_nil_r. auto. Qed.

Lemma emits_get_i : emits P get_i.
Proof. intros fr. exists []. simpl. rewrite app_nil_r. auto. Qed.

Lemma emits_set_i (v : Z) : emits P (set_i v).
Proof. intros fr. exists []. simpl. rewrite app_nil_r. auto. Qed.

Lemma emits_set_iteration_accepted (b : bool) :
  emits P (set_iteration_accepted b).
Proof. intros fr. exists []. simpl. rewrite app_nil_r. auto. Qed.

Lemma emits_ext (c : call) : P c -> emits P (ext w c).
Proof.
  intros Hc fr. exists [mkEvent c (w (tr fr) c)]. split.
  - reflexivity.
  - repeat constructor. exact Hc.
Qed.

Lemma emits_seq {A B} (c : M A) (k : M B) (fr : frame) :
  emits P c -> emits P k ->
  exists t, tr (snd (k (snd (c fr)))) = (tr fr ++ t)%list /\
            Forall P (calls t).
Proof.
  intros Hc Hk. destruct (Hc fr) as (t1 & E1 & F1).
  destruct (Hk (snd (c fr))) as (t2 & E2 & F2).
  exists (t1 ++ t2)%list. split.
  - rewrite E2, E1, app_assoc. reflexivity.
  - unfold calls in *. rewrite map_app. apply Forall_app; auto.
Qed.

Lemma emits_bind {A B} (c : M A) (k : A -> M B) :
  emits P c -> (forall a, emits P (k a)) -> emits P (bind c k).
Proof.
  intros Hc Hk fr. unfold bind.
  destruct (c fr) as [[a|e|] fr'] eqn:E; try (specialize (Hc fr);
    rewrite E in Hc; exact Hc).
  pose proof (emits_seq c (k a) fr Hc (Hk a)) as H.
  rewrite E in H. exact H.
Qed.

Lemma emits_raise_bind {A B} (e : exn) (k : A -> M B) :
  emits P (bind (lift (Raise e)) k).
Proof. intros fr. exists []. simpl. rewrite app_nil_r. auto. Qed.

Lemma emits_try_except (body handler : M unit) :
  emits P body -> emits P handler -> emits P (try_except body handler).
Proof.
  intros Hb Hh fr. unfold try_except.
  destruct (body fr) as [[a|e|] fr'] eqn:E; try (specialize (Hb fr);
    rewrite E in Hb; exact Hb).
  pose proof (emits_seq body handler fr Hb Hh) as H.
  rewrite E in H. exact H.
Qed.

Lemma emits_while_rounds (fuel : nat) (body : M unit) :
  emits P body -> emits P (while_rounds fuel body).
Proof.
  intros Hb. induction fuel as [|fuel IH]; intros fr; simpl.
  - exists []. simpl. rewrite app_nil_r. auto.
  - destruct (body fr) as [[a|e|] fr'] eqn:E; try (specialize (Hb fr);
      rewrite E in Hb; exact Hb).
    destruct (iteration_accepted fr').
    + specialize (Hb fr). rewrite E in Hb. exact Hb.
    + pose proof (emits_seq body (while_rounds fuel body) fr Hb IH) as H.
      rewrite E in H. exact H.
Qed.

Lemma emits_while_not_accepted (fuel : nat) (body : M unit) :
  emits P body -> emits P (while_not_accepted fuel body).
Proof.
  intros Hb fr. unfold while_not_accepted.
  destruct (iteration_accepted fr).
  - exists []. simpl. rewrite app_nil_r. auto.
  - apply emits_while_rounds, Hb.
Qed.

Lemma emits_for_i (xs : list Z) (body : M unit) :
  emits P body -> emits P (for_i xs body).
Proof.
  intros Hb. induction xs as [|x xs IH]; simpl.
  - apply emits_ret.
  - apply emits_bind; [apply emits_set_i|intros _].
    apply emits_bind; [exact Hb|intros _; exact IH].
Qed.

Lemma emits_for_each {A} (xs : list A) (body : A -> M unit) :
  (forall x, emits P (body x)) -> emits P (for_each xs body).
Proof.
  intros Hb. induction xs as [|x xs IH]; simpl.
  - apply emits_ret.
  - apply emits_bind; [apply Hb|intros _; exact IH].
Qed.

End Emits.

End ControllerFacts.

Create HintDb emits.

(** Decomposes a goal [emits P m] along the structure of [m]. *)
Ltac emits_step :=
  lazymatch goal with
  | |- emits _ (bind (lift (Raise _)) _) => apply emits_raise_bind
  | |- emits _ (bind _ _) => apply emits_bind; [|intros ?]
  | |- emits _ (ext _ _) =>
      apply emits_ext; first [exact I | unfold not_batch_index; discriminate]
  | |- emits _ (ret _) => apply emits_ret
  | |- emits _ (lift _) => apply emits_lift
  | |- emits _ get_i => apply emits_get_i
  | |- emits _ (set_i _) => apply emits_set_i
  | |- emits _ (set_iteration_accepted _) => apply emits_set_iteration_accepted
  | |- emits _ (try_except _ _) => apply emits_try_except
  | |- emits _ (while_not_accepted _ _) => apply emits_while_not_accepted
  | |- emits _ (for_i _ _) => apply emits_for_i
  | |- emits _ (for_each _ _) => apply emits_for_each; intros ?
  | |- emits _ (if ?b then _ else _) => destruct b
  | |- emits _ _ => solve [auto with emits]
  end.

Ltac emits_auto := repeat emits_step.

Section ControllerTraces.

Variable w : world.

Lemma emits_seed_lengthscales bounds :
  emits not_batch_index (seed_lengthscales w bounds).
Proof. unfold seed_lengthscales. emits_auto. Qed.

Lemma emits_get_model : emits not_batch_index (get_model w).
Proof. unfold get_model. emits_auto. Qed.

Hint Resolve emits_seed_lengthscales emits_get_model : emits.

Lemma emits_setup : emits not_batch_index (setup w).
Proof. unfold setup. emits_auto. Qed.

Lemma emits_initial_fit bounds : emits not_batch_index (initial_fit w bounds).
Proof. unfold initial_fit. emits_auto. Qed.

(** The handler of the initial phase stops at the unbound name
    [batch_index]: the assignment after it is never reached. *)
Lemma emits_collect_initial fuel n :
  emits not_batch_index (collect_initial w fuel n).
Proof.
  unfold collect_initial.
  change (load_global module_globals "batch_index")
    with (@Raise binding (NameError "batch_index")).
  emits_auto.
Qed.

Lemma emits_retune bounds : emits not_batch_index (retune w bounds).
Proof. unfold retune. emits_auto. Qed.

Hint Resolve emits_retune : emits.

Lemma emits_refine_attempt bounds :
  emits not_batch_index (refine_attempt w bounds).
Proof. unfold refine_attempt. emits_auto. Qed.

Lemma emits_refine_handler : emits not_batch_index (refine_handler w).
Proof. unfold refine_handler. emits_auto. Qed.

Hint Resolve emits_refine_attempt emits_refine_handler : emits.

Lemma emits_refine_try bounds : emits not_batch_index (refine_try w bounds).
Proof. unfold refine_try. emits_auto. Qed.

Hint Resolve emits_refine_try : emits.

Lemma emits_refine_round fuel bounds :
  emits not_batch_index (refine_round w fuel bounds).
Proof. unfold refine_round. emits_auto. Qed.

Hint Resolve emits_refine_round : emits.

Lemma emits_refine fuel bounds : emits not_batch_index (refine w fuel bounds).
Proof. unfold refine. emits_auto. Qed.

Hint Resolve emits_setup emits_initial_fit emits_collect_initial
  emits_refine : emits.

Lemma emits_main fuel : emits not_batch_index (main w fuel).
Proof. unfold main. emits_auto. Qed.

End ControllerTraces.

#[global] Hint Resolve emits_seed_lengthscales emits_get_model emits_setup
  emits_initial_fit emits_collect_initial emits_retune emits_refine_attempt
  emits_refine_handler emits_refine_try emits_refine_round emits_refine
  emits_main : emits.

(** *** Every completed run wrote every snapshot *)

Section SnapshotsWritten.

Variable w : world.

Lemma snapshots_app t1 t2 :
  snapshots (t1 ++ t2) = snapshots t1 ++ snapshots t2.
Proof. unfold snapshots. apply flat_map_app. Qed.

Lemma snapshots_mono f t t' :
  In f (snapshots t) -> In f (snapshots (t ++ t')).
Proof. intros H. rewrite snapshots_app. apply in_or_app. auto. Qed.

Lemma try_except_bind {A} (c : M A) (k : A -> M unit) (h : M unit) fr :
  try_except (bind c k) h fr =
  match c fr with
  | (Ok a, fr') => try_except (k a) h fr'
  | (Raise e, fr') => h fr'
  | (OutOfFuel, fr') => (OutOfFuel, fr')
  end.
Proof.
  unfold try_except, bind. destruct (c fr) as [[a|e|] fr']; reflexivity.
Qed.

Lemma keeps_refine_handler : keeps_vars (refine_handler w).
Proof.
  intros fr. unfold refine_handler, bind.
  destruct (ext_cases w (print ["Exception!"]) fr) as [E|E]; rewrite E;
    [|split; reflexivity].
  destruct (ext_cases w batches_reset (push (print ["Exception!"]) false fr))
    as [E'|E']; rewrite E'; split; reflexivity.
Qed.

(** The handler, entered [t0] after the frame [fr0] with the variables
    of [fr0], leaves them as they are. *)
Lemma handler_after (fr0 fr : frame) (t0 : trace) :
  tr fr = tr fr0 ++ t0 -> var_i fr = var_i fr0 ->
  iteration_accepted fr = iteration_accepted fr0 ->
  exists t, tr (snd (refine_handler w fr)) = tr fr0 ++ t /\
            var_i (snd (refine_handler w fr)) = var_i fr0 /\
            iteration_accepted (snd (refine_handler w fr))
            = iteration_accepted fr0.
Proof.
  intros Et Ei Ea.
  destruct (emits_refine_handler w fr) as (t & E & _).
  destruct (keeps_refine_handler fr) as [K1 K2].
  exists (t0 ++ t). rewrite E, Et, app_assoc, K1, K2. auto.
Qed.

(** One attempt of a round either leaves [i] and the acceptance flag as
    they were, or it has written the snapshot of the [i] it started with. *)
Lemma attempt_snapshot bounds fr :
  let r := refine_try w bounds fr in
  exists t, tr (snd r) = tr fr ++ t /\
    ((var_i (snd r) = var_i fr /\
      iteration_accepted (snd r) = iteration_accepted fr) \/
     In (snapshot_name (150 + 50 * var_i fr)) (snapshots t)).
Proof.
  cbv zeta. unfold refine_try, refine_attempt.
  rewrite try_except_bind. cbv [get_i]. rewrite try_except_bind.
  set (ft := bolfi_fit (150 + 50 * var_i fr)).
  destruct (ext_cases w ft fr) as [E|E]; rewrite E.
  2:{ destruct (handler_after fr (push ft true fr) [mkEvent ft true])
        as (t & Ht & Hv); try reflexivity.
      exists t. auto. }
  rewrite try_except_bind. cbv [get_i]. rewrite try_except_bind.
  set (fr1 := push ft false fr).
  change (var_i fr1) with (var_i fr).
  set (sv := save_bolfi (snapshot_name (150 + 50 * var_i fr))).
  destruct (ext_cases w sv fr1) as [E1|E1]; rewrite E1.
  2:{ destruct (handler_after fr (push sv true fr1)
                  [mkEvent ft false; mkEvent sv true])
        as (t & Ht & Hv); try reflexivity.
      - unfold fr1, push; simpl. rewrite <- app_assoc. reflexivity.
      - exists t. split; [exact Ht|left; exact Hv]. }
  assert (Hem : emits not_batch_index
                  (try_except (bind (retune w bounds)
                                    (fun _ => set_iteration_accepted true))
                              (refine_handler w))) by emits_auto.
  destruct (Hem (push sv false fr1)) as (t & Ht & _).
  exists ([mkEvent ft false; mkEvent sv false] ++ t).
  split.
  - rewrite Ht. simpl. rewrite <- !app_assoc. reflexivity.
  - right. rewrite snapshots_app. apply in_or_app. left. simpl. auto.
Qed.

(** The loop of round [j]: [i] is still [j], or the snapshot of round [j]
    has been written. *)
Lemma while_rounds_snapshot fuel bounds j fr :
  iteration_accepted fr = false ->
  var_i fr = j \/ In (snapshot_name (150 + 50 * j)) (snapshots (tr fr)) ->
  fst (while_rounds fuel (refine_try w bounds) fr) = Ok tt ->
  In (snapshot_name (150 + 50 * j))
     (snapshots (tr (snd (while_rounds fuel (refine_try w bounds) fr)))).
Proof.
  revert fr. induction fuel as [|fuel IH]; intros fr Hacc Hinv; simpl.
  - discriminate.
  - destruct (attempt_snapshot bounds fr) as (t & Ht & Hcases).
    destruct (refine_try w bounds fr) as [[[]|e|] fr'] eqn:E; simpl in *;
      try discriminate.
    assert (Hinv' : iteration_accepted fr' = false /\ var_i fr' = j \/
                    In (snapshot_name (150 + 50 * j)) (snapshots (tr fr'))).
    { rewrite Ht. destruct Hcases as [[Hi Ha]|Hin].
      - destruct Hinv as [Hj|Hold].
        + left. split; congruence.
        + right. apply snapshots_mono, Hold.
      - right. destruct Hinv as [Hj|Hold].
        + subst j. rewrite snapshots_app. apply in_or_app. auto.
        + apply snapshots_mono, Hold. }
    destruct (iteration_accepted fr') eqn:Ha'; simpl.
    + intros _. destruct Hinv' as [[Hf _]|Hin]; [discriminate|exact Hin].
    + intros Hok. apply IH; auto. destruct Hinv' as [[_ Hj]|Hin]; auto.
Qed.

Lemma refine_round_snapshot fuel bounds fr :
  fst (refine_round w fuel bounds fr) = Ok tt ->
  In (snapshot_name (150 + 50 * var_i fr))
     (snapshots (tr (snd (refine_round w fuel bounds fr)))).
Proof.
  unfold refine_round. cbv [bind set_iteration_accepted get_i].
  cbv beta iota.
  match goal with
  | |- context [ext w ?c ?f] =>
      destruct (ext_cases w c f) as [E|E]; rewrite E
  end; [|discriminate].
  unfold while_not_accepted.
  cbn [iteration_accepted push].
  apply while_rounds_snapshot; auto.
Qed.

Lemma refine_snapshots fuel bounds xs fr :
  fst (for_i xs (refine_round w fuel bounds) fr) = Ok tt ->
  forall j, In j xs ->
    In (snapshot_name (150 + 50 * j))
       (snapshots (tr (snd (for_i xs (refine_round w fuel bounds) fr)))).
Proof.
  revert fr. induction xs as [|x xs IH]; intros fr Hok j Hj; [contradiction|].
  simpl in Hok |- *.
  destruct (bind_Ok _ _ _ _ Hok) as ([] & _ & E1).
  rewrite E1 in Hok |- *. clear E1.
  set (fr0 := snd (set_i x fr)) in *.
  destruct (bind_Ok _ _ _ _ Hok) as ([] & Hround & E2).
  rewrite E2 in Hok |- *. clear E2.
  destruct Hj as [<-|Hj].
  - assert (Hem : emits not_batch_index
                    (for_i xs (refine_round w fuel bounds))) by emits_auto.
    destruct (Hem (snd (refine_round w fuel bounds fr0))) as (t & Ht & _).
    rewrite Ht. apply snapshots_mono.
    apply (refine_round_snapshot fuel bounds fr0 Hround).
  - apply IH; assumption.
Qed.

(** Every run that ends normally has written the initial snapshot and the
    snapshot of each of the 20 rounds, whatever was retried in between. *)
Lemma main_snapshots fuel :
  fst (run w fuel) = Ok tt ->
  In (initial_snapshot_name 150) (snapshots (tr (snd (run w fuel)))) /\
  forall i, 0 <= i < 20 ->
    In (snapshot_name (150 + 50 * i)) (snapshots (tr (snd (run w fuel)))).
Proof.
  unfold run, main. intros Hok.
  destruct (bind_Ok _ _ _ _ Hok) as (bounds & _ & E1).
  rewrite E1 in Hok |- *. clear E1.
  set (fr1 := snd (setup w initial_frame)) in *.
  destruct (bind_Ok _ _ _ _ Hok) as ([] & _ & E2).
  rewrite E2 in Hok |- *. clear E2.
  set (fr2 := snd (collect_initial w fuel 150 fr1)) in *.
  destruct (bind_Ok _ _ _ _ Hok) as ([] & Hsave & E3).
  rewrite E3 in Hok |- *. clear E3.
  destruct (ext_cases w (save_bolfi (initial_snapshot_name 150)) fr2)
    as [E|E]; rewrite E in Hsave |- *; [clear Hsave|discriminate Hsave].
  rewrite E in Hok. cbn [snd] in Hok |- *.
  set (fr3 := push (save_bolfi (initial_snapshot_name 150)) false fr2) in *.
  destruct (bind_Ok _ _ _ _ Hok) as ([] & _ & E4).
  rewrite E4 in Hok |- *. clear E4.
  set (fr4 := snd (initial_fit w bounds fr3)) in *.
  split.
  - destruct (emits_initial_fit w bounds fr3) as (t1 & Ht1 & _).
    destruct (emits_refine w fuel bounds fr4) as (t2 & Ht2 & _).
    rewrite Ht2. unfold fr4. rewrite Ht1.
    do 2 apply snapshots_mono. unfold fr3, push. cbn [tr].
    rewrite snapshots_app. apply in_or_app. right. simpl. auto.
  - intros i Hi. apply refine_snapshots; [exact Hok|].
    unfold range. apply in_map_iff. exists (Z.to_nat i). split; [lia|].
    apply in_seq. lia.
Qed.

End SnapshotsWritten.

(** *** Straight-line pieces of the controller *)

Section Straight.

Variable w : world.
Variable P : call -> Prop.

Lemma straight_pure {A} (m : M A) (a : A) :
  (forall fr, fst (m fr) = Ok a /\ tr (snd (m fr)) = tr fr) -> straight P m.
Proof.
  intros H fr. exists []. destruct (H fr) as [H1 H2].
  rewrite H1, H2, app_nil_r.
  split; [reflexivity|]. split; [constructor|].
  left. split; [eauto|constructor].
Qed.

Lemma straight_ext c : P c -> straight P (ext w c).
Proof.
  intros Hc fr. exists [mkEvent c (w (tr fr) c)]. split; [reflexivity|].
  split; [repeat constructor; exact Hc|].
  unfold ext. destruct (w (tr fr) c); simpl.
  - right. split; [eauto|]. constructor. reflexivity.
  - left. split; [eauto|]. repeat constructor.
Qed.

Lemma straight_bind {A B} (c : M A) (k : A -> M B) :
  straight P c -> (forall a, straight P (k a)) -> straight P (bind c k).
Proof.
  intros Hc Hk fr. unfold bind.
  destruct (Hc fr) as (t1 & E1 & F1 & O1).
  destruct (c fr) as [[a|e|] fr'] eqn:E; simpl in *.
  - destruct (Hk a fr') as (t2 & E2 & F2 & O2).
    exists (t1 ++ t2). split; [rewrite E2, E1, app_assoc; reflexivity|].
    split; [unfold calls in *; rewrite map_app; apply Forall_app; auto|].
    destruct O1 as [[_ Q1]|[[e He] _]]; [|discriminate].
    destruct O2 as [[Ha Q2]|[He X2]].
    + left. split; [exact Ha|]. apply Forall_app; auto.
    + right. split; [exact He|]. apply Exists_app; auto.
  - exists t1. split; [exact E1|]. split; [exact F1|].
    destruct O1 as [[[a Ha] _]|[_ X1]]; [discriminate|].
    right. split; [eauto|exact X1].
  - destruct O1 as [[[a Ha] _]|[[e He] _]]; discriminate.
Qed.

Lemma straight_get_i : straight P get_i.
Proof.
  intros fr. exists []. rewrite app_nil_r. simpl.
  split; [reflexivity|]. split; [constructor|].
  left. split; [eauto|constructor].
Qed.

Lemma straight_for_each {A} (xs : list A) (body : A -> M unit) :
  (forall x, straight P (body x)) -> straight P (for_each xs body).
Proof.
  intros Hb. induction xs as [|x xs IH]; simpl.
  - apply (straight_pure _ tt); intros; split; reflexivity.
  - apply straight_bind; [apply Hb|intros _; exact IH].
Qed.


End Straight.

(** Decomposes a goal [straight P m] along the structure of [m]. *)
Ltac straight_step :=
  cbv beta;
  lazymatch goal with
  | |- straight _ (bind _ _) => apply straight_bind; [|intros ?]
  | |- straight _ (ext _ _) =>
      apply straight_ext; first [exact I | split; reflexivity]
  | |- straight _ (ret ?a) =>
      apply (straight_pure _ _ a); intros; split; reflexivity
  | |- straight _ get_i => apply straight_get_i
  | |- straight _ (set_i _) =>
      apply (straight_pure _ _ tt); intros; split; reflexivity
  | |- straight _ (set_iteration_accepted _) =>
      apply (straight_pure _ _ tt); intros; split; reflexivity
  | |- straight _ (for_each _ _) => apply straight_for_each; intros ?
  | |- straight _ (if ?b then _ else _) => destruct b
  | |- straight _ (let '(_, _) := ?p in _) => destruct p
  end.

Section StraightPieces.

Variable w : world.

Lemma seed_lengthscales_unrolled fr :
  seed_lengthscales w target_bounds fr = seeds w fr.
Proof. reflexivity. Qed.

Lemma straight_seeds : straight tuning (seeds w).
Proof. unfold seeds. repeat straight_step. Qed.

Lemma straight_ext_fun {A} (m m' : M A) P :
  (forall fr, m fr = m' fr) -> straight P m' -> straight P m.
Proof. intros E H fr. rewrite E. apply H. Qed.

Lemma straight_retune : straight tuning (retune w target_bounds).
Proof.
  unfold retune. repeat straight_step.
  all: try (eapply straight_ext_fun;
            [apply seed_lengthscales_unrolled|apply straight_seeds]).
Qed.

Lemma straight_initial_fit : straight tuning (initial_fit w target_bounds).
Proof.
  unfold initial_fit. repeat straight_step.
  all: try (eapply straight_ext_fun;
            [apply seed_lengthscales_unrolled|apply straight_seeds]).
Qed.

Lemma straight_refine_handler : straight tuning (refine_handler w).
Proof. unfold refine_handler. repeat straight_step. Qed.

Lemma straight_get_model : straight tuning (get_model w).
Proof. unfold get_model. repeat straight_step. Qed.

Lemma straight_setup : straight tuning (setup w).
Proof.
  unfold setup. straight_step; [straight_step|].
  straight_step; [apply straight_get_model|].
  repeat straight_step.
Qed.

Lemma get_model_Ok fr m : fst (get_model w fr) = Ok m -> m = model_graph.
Proof.
  unfold get_model. intros H.
  repeat (let a := fresh "a" in let E := fresh "E" in
          destruct (bind_Ok _ _ _ _ H) as (a & _ & E);
          rewrite E in H; clear E).
  unfold ret in H. cbn [fst] in H. congruence.
Qed.

Lemma setup_Ok fr b : fst (setup w fr) = Ok b -> b = target_bounds.
Proof.
  unfold setup. intros H.
  destruct (bind_Ok _ _ _ _ H) as (a & _ & E); rewrite E in H; clear E.
  destruct (bind_Ok _ _ _ _ H) as (m & Hm & E); rewrite E in H; clear E.
  apply get_model_Ok in Hm. subst m.
  repeat (let a := fresh "a" in let E := fresh "E" in
          destruct (bind_Ok _ _ _ _ H) as (a & _ & E);
          rewrite E in H; clear E).
  unfold ret in H. cbn [fst] in H. unfold target_bounds. congruence.
Qed.

End StraightPieces.

(** *** Runs whose only failures are failed fits and failed saves *)

Lemma tuning_snapshots t : Forall tuning (calls t) -> snapshots t = [].
Proof.
  induction t as [|[c r] t IH]; intros H; [reflexivity|].
  inversion H as [|? ? [Hf Hs] Ht]; subst.
  change (snapshots (mkEvent c r :: t))
    with ((match c, r with save_bolfi f, false => [f] | _, _ => [] end)
            ++ snapshots t).
  rewrite (IH Ht). destruct c; try reflexivity. discriminate Hs.
Qed.

Lemma tuning_checkpoints t last :
  Forall tuning (calls t) -> checkpoints_from last t = [].
Proof.
  revert last. induction t as [|[c r] t IH]; intros last H; [reflexivity|].
  inversion H as [|? ? [Hf Hs] Ht]; subst.
  destruct c; try discriminate Hf; try discriminate Hs; simpl;
    try (apply IH; exact Ht); destruct r; apply IH; exact Ht.
Qed.

Lemma tuning_benign_quiet t :
  Forall tuning (calls t) -> forallb benign t = true -> quiet t.
Proof.
  induction t as [|[c r] t IH]; intros H Hb; [constructor|].
  inversion H as [|? ? [Hf Hs] Ht]; subst.
  simpl in Hb. apply andb_true_iff in Hb. destruct Hb as [Hb1 Hb2].
  constructor; [|apply IH; assumption].
  unfold benign in Hb1. simpl in *. rewrite Hf, Hs in Hb1.
  destruct r; [discriminate Hb1|reflexivity].
Qed.

Lemma quiet_not_raised t :
  quiet t -> Exists (fun e => ev_raised e = true) t -> False.
Proof.
  intros Hq Hx. apply Exists_exists in Hx. destruct Hx as (e & Hin & Hr).
  unfold quiet in Hq. rewrite Forall_forall in Hq.
  specialize (Hq e Hin). congruence.
Qed.


Lemma checkpoints_from_app last t1 t2 :
  checkpoints_from last (t1 ++ t2)
  = checkpoints_from last t1 ++ checkpoints_from (last_fit last t1) t2.
Proof.
  revert last. induction t1 as [|[c r] t1 IH]; intros last; [reflexivity|].
  destruct c; simpl; try apply IH; destruct r; try apply IH.
  destruct last; simpl; rewrite IH; reflexivity.
Qed.

Lemma covers_app xs ys t1 t2 :
  covers xs t1 -> covers ys t2 -> covers (xs ++ ys) (t1 ++ t2).
Proof.
  intros [S1 C1] [S2 C2]. split.
  - rewrite snapshots_app, S1, S2, map_app. reflexivity.
  - intros last. rewrite checkpoints_from_app, C1, C2, map_app. reflexivity.
Qed.

Lemma covers_tuning t : Forall tuning (calls t) -> covers [] t.
Proof.
  intros H. split; [apply tuning_snapshots, H|].
  intros last. apply tuning_checkpoints, H.
Qed.

Section Benign.

Variable w : world.

Lemma handler_idle fr0 fr t0 t :
  tr fr = tr fr0 ++ t0 ->
  tr (snd (refine_handler w fr)) = tr fr0 ++ t ->
  exists th, t = t0 ++ th /\ Forall tuning (calls th).
Proof.
  intros E0 E. destruct (straight_refine_handler w fr) as (th & Eh & Fh & _).
  exists th. split; [|exact Fh].
  rewrite Eh, E0, <- app_assoc in E. apply app_inv_head in E. auto.
Qed.

(** One attempt of round [j] that ends normally with benign events only:
    either it is accepted and has written the snapshot of round [j] once,
    at the target of round [j]; or it was a failed fit or save, nothing
    was written, and [i] is still [j]. *)
Lemma attempt_benign j fr t :
  var_i fr = j ->
  tr (snd (refine_try w target_bounds fr)) = tr fr ++ t ->
  fst (refine_try w target_bounds fr) = Ok tt ->
  forallb benign t = true ->
  (iteration_accepted (snd (refine_try w target_bounds fr)) = true /\
   covers [j] t) \/
  (iteration_accepted (snd (refine_try w target_bounds fr))
   = iteration_accepted fr /\
   var_i (snd (refine_try w target_bounds fr)) = j /\
   covers [] t).
Proof.
  intros Hj. subst j. unfold refine_try, refine_attempt.
  rewrite try_except_bind. cbv [get_i]. rewrite try_except_bind.
  set (T := 150 + 50 * var_i fr).
  set (ft := bolfi_fit T).
  destruct (ext_cases w ft fr) as [E|E]; rewrite E.
  2:{ intros Et _ _. right.
      destruct (keeps_refine_handler w (push ft true fr)) as [K1 K2].
      destruct (handler_idle fr (push ft true fr) [mkEvent ft true] t
                  eq_refl Et) as (th & -> & Fh).
      rewrite K1, K2. repeat split; try reflexivity.
      - rewrite snapshots_app. simpl. apply tuning_snapshots, Fh.
      - intros last. simpl. apply tuning_checkpoints, Fh. }
  rewrite try_except_bind. cbv [get_i]. rewrite try_except_bind.
  set (fr1 := push ft false fr).
  change (var_i fr1) with (var_i fr). fold T.
  set (sv := save_bolfi (snapshot_name T)).
  destruct (ext_cases w sv fr1) as [E1|E1]; rewrite E1.
  2:{ intros Et _ _. right.
      destruct (keeps_refine_handler w (push sv true fr1)) as [K1 K2].
      destruct (handler_idle fr (push sv true fr1)
                  [mkEvent ft false; mkEvent sv true] t)
        as (th & -> & Fh).
      { unfold fr1, push; simpl. rewrite <- app_assoc. reflexivity. }
      { exact Et. }
      rewrite K1, K2. repeat split; try reflexivity.
      - rewrite snapshots_app. simpl. apply tuning_snapshots, Fh.
      - intros last. simpl. apply tuning_checkpoints, Fh. }
  set (fr2 := push sv false fr1).
  assert (Efr2 : tr fr2 = tr fr ++ [mkEvent ft false; mkEvent sv false]).
  { unfold fr2, fr1, push; simpl. rewrite <- app_assoc. reflexivity. }
  rewrite try_except_bind.
  destruct (straight_retune w fr2) as (tq & Eq & Fq & Oq).
  destruct (retune w target_bounds fr2) as [[[]|e|] fr3] eqn:ER; simpl in *.
  - (* re-tuning returned *)
    intros Et _ _. left. unfold try_except, set_iteration_accepted in *.
    simpl in *. split; [reflexivity|].
    rewrite Eq, Efr2, <- app_assoc in Et. apply app_inv_head in Et. subst t.
    split.
    + rewrite snapshots_app. simpl. rewrite (tuning_snapshots _ Fq).
      reflexivity.
    + intros last. simpl. rewrite (tuning_checkpoints _ _ Fq). reflexivity.
  - (* re-tuning raised: one of its calls raised, which is not benign *)
    intros Et _ Hb. exfalso.
    destruct (handler_idle fr fr3
                ([mkEvent ft false; mkEvent sv false] ++ tq) t)
      as (th & -> & Fh).
    { rewrite Eq, Efr2, <- app_assoc. reflexivity. }
    { exact Et. }
    rewrite !forallb_app in Hb. apply andb_true_iff in Hb.
    destruct Hb as [Hb _].
    apply andb_true_iff in Hb. destruct Hb as [_ Hb].
    destruct Oq as [[[a Ha] _]|[_ X]]; [discriminate|].
    exact (quiet_not_raised tq (tuning_benign_quiet tq Fq Hb) X).
  - destruct Oq as [[[a Ha] _]|[[e He] _]]; discriminate.
Qed.

Lemma while_rounds_benign j fuel fr t :
  var_i fr = j ->
  iteration_accepted fr = false ->
  tr (snd (while_rounds fuel (refine_try w target_bounds) fr)) = tr fr ++ t ->
  fst (while_rounds fuel (refine_try w target_bounds) fr) = Ok tt ->
  forallb benign t = true ->
  covers [j] t.
Proof.
  revert fr t. induction fuel as [|fuel IH]; intros fr t Hj Hacc; simpl;
    [discriminate|].
  destruct (emits_refine_try w target_bounds fr) as (ta & Eta & _).
  pose proof (attempt_benign j fr ta Hj Eta) as HA.
  destruct (refine_try w target_bounds fr) as [[[]|e|] fr'] eqn:EB;
    simpl in *; try discriminate.
  destruct (iteration_accepted fr') eqn:Ha'; simpl.
  - intros Et _ Hb. rewrite Eta in Et. apply app_inv_head in Et. subst ta.
    destruct (HA eq_refl Hb) as [[_ Hc]|[Hf _]]; [exact Hc|congruence].
  - intros Et Hok Hb.
    destruct (emits_while_rounds not_batch_index fuel _
                (emits_refine_try w target_bounds) fr') as (tw & Etw & _).
    assert (t = ta ++ tw) as ->.
    { rewrite Etw, Eta, <- app_assoc in Et. apply app_inv_head in Et. auto. }
    rewrite forallb_app in Hb. apply andb_true_iff in Hb.
    destruct Hb as [Hba Hbw].
    destruct (HA eq_refl Hba) as [[Hf _]|(_ & Hi & Hidle)]; [discriminate|].
    apply (covers_app [] [j]); [exact Hidle|].
    apply (IH fr' tw Hi Ha' Etw Hok Hbw).
Qed.

Lemma refine_round_benign fuel fr t :
  tr (snd (refine_round w fuel target_bounds fr)) = tr fr ++ t ->
  fst (refine_round w fuel target_bounds fr) = Ok tt ->
  forallb benign t = true ->
  covers [var_i fr] t.
Proof.
  unfold refine_round. cbv [bind set_iteration_accepted get_i].
  cbv beta iota.
  match goal with
  | |- context [ext w ?c ?f] =>
      destruct (ext_cases w c f) as [E|E]; rewrite E
  end; [|discriminate].
  unfold while_not_accepted. cbn [iteration_accepted push].
  match goal with
  | |- context [while_rounds fuel _ ?f] => set (fr1 := f)
  end.
  intros Et Hok Hb.
  destruct (emits_while_rounds not_batch_index fuel _
              (emits_refine_try w target_bounds) fr1) as (tw & Etw & _).
  rewrite Etw in Et. unfold fr1 in Et. cbn [tr push] in Et.
  rewrite <- app_assoc in Et. apply app_inv_head in Et. subst t.
  rewrite forallb_app in Hb. apply andb_true_iff in Hb.
  destruct Hb as [_ Hbw].
  apply (covers_app [] [var_i fr]).
  - apply covers_tuning. repeat constructor.
  - apply (while_rounds_benign (var_i fr) fuel fr1 tw); auto.
Qed.

Lemma refine_benign fuel xs fr t :
  tr (snd (for_i xs (refine_round w fuel target_bounds) fr)) = tr fr ++ t ->
  fst (for_i xs (refine_round w fuel target_bounds) fr) = Ok tt ->
  forallb benign t = true ->
  covers xs t.
Proof.
  revert fr t. induction xs as [|x xs IH]; intros fr t Et Hok Hb.
  - simpl in Et. rewrite <- (app_nil_r (tr fr)) in Et at 1.
    apply app_inv_head in Et. subst t. split; reflexivity.
  - simpl in Et, Hok.
    destruct (bind_Ok _ _ _ _ Hok) as ([] & _ & E1).
    rewrite E1 in Et, Hok. clear E1.
    set (fr0 := snd (set_i x fr)) in *.
    destruct (bind_Ok _ _ _ _ Hok) as ([] & Hround & E2).
    rewrite E2 in Et, Hok. clear E2.
    destruct (emits_refine_round w fuel target_bounds fr0) as (t1 & Et1 & _).
    destruct (emits_for_i not_batch_index xs _
                (emits_refine_round w fuel target_bounds)
                (snd (refine_round w fuel target_bounds fr0)))
      as (t2 & Et2 & _).
    assert (t = t1 ++ t2) as ->.
    { rewrite Et2, Et1 in Et. change (tr fr0) with (tr fr) in Et.
      rewrite <- app_assoc in Et. apply app_inv_head in Et. auto. }
    rewrite forallb_app in Hb. apply andb_true_iff in Hb.
    destruct Hb as [Hb1 Hb2].
    apply (covers_app [x] xs).
    + apply (refine_round_benign fuel fr0 t1 Et1 Hround Hb1).
    + apply (IH _ t2 Et2 Hok Hb2).
Qed.

End Benign.

Section WholeRun.

Variable w : world.

(** The initial phase, with a budget of at least one round: the fit is
    called once; when it returns the phase is over, when it raises the
    handler cancels the pending batches and the phase ends with an
    exception. *)
Lemma collect_initial_cases fuel n fr :
  let r := collect_initial w (S fuel) n fr in
  (fst r = Ok tt /\
   tr (snd r) = tr fr ++ [mkEvent (bolfi_fit n) false]) \/
  (fst r = Raise (NameError "batch_index") /\
   tr (snd r) = tr fr ++ [mkEvent (bolfi_fit n) true;
                          mkEvent batches_cancel_pending false]) \/
  (fst r = Raise LibraryError /\
   tr (snd r) = tr fr ++ [mkEvent (bolfi_fit n) true;
                          mkEvent batches_cancel_pending true]).
Proof.
  unfold collect_initial, bind, set_iteration_accepted, while_not_accepted,
    try_except, ext, lift. simpl.
  destruct (w (tr fr) (bolfi_fit n)); simpl.
  - match goal with |- context [w ?t batches_cancel_pending] =>
      destruct (w t batches_cancel_pending) end; simpl;
      rewrite <- app_assoc; auto.
  - auto.
Qed.

Lemma collect_initial_Ok fuel n fr :
  fst (collect_initial w fuel n fr) = Ok tt ->
  tr (snd (collect_initial w fuel n fr))
  = tr fr ++ [mkEvent (bolfi_fit n) false].
Proof.
  destruct fuel as [|fuel]; [discriminate|].
  destruct (collect_initial_cases fuel n fr) as [[_ E]|[[E _]|[E _]]];
    [intros _; exact E| |]; rewrite E; discriminate.
Qed.

(** A run that ends normally with benign events only writes the 21
    snapshots once each, in order, at the targets 150, 150, 200, ...,
    1100. *)
Lemma run_benign fuel :
  fst (run w fuel) = Ok tt ->
  forallb benign (tr (snd (run w fuel))) = true ->
  snapshots (tr (snd (run w fuel)))
    = initial_snapshot_name 150
      :: map (fun j => snapshot_name (150 + 50 * j)) (range 20) /\
  checkpoints (tr (snd (run w fuel)))
    = 150 :: map (fun j => 150 + 50 * j) (range 20).
Proof.
  unfold run, main. intros Hok.
  destruct (bind_Ok _ _ _ _ Hok) as (bounds & Hsetup & E1).
  rewrite E1 in Hok |- *. clear E1.
  apply setup_Ok in Hsetup. subst bounds.
  destruct (straight_setup w initial_frame) as (ts & Ets & Fts & _).
  set (fr1 := snd (setup w initial_frame)) in *.
  destruct (bind_Ok _ _ _ _ Hok) as ([] & Hci & E2).
  rewrite E2 in Hok |- *. clear E2.
  apply collect_initial_Ok in Hci.
  set (fr2 := snd (collect_initial w fuel 150 fr1)) in *.
  destruct (bind_Ok _ _ _ _ Hok) as ([] & Hsave & E3).
  rewrite E3 in Hok |- *. clear E3.
  set (sv := save_bolfi (initial_snapshot_name 150)) in *.
  destruct (ext_cases w sv fr2) as [E|E];
    rewrite E in Hsave |- *; [clear Hsave|discriminate Hsave].
  rewrite E in Hok. cbn [snd] in Hok |- *.
  set (fr3 := push sv false fr2) in *.
  destruct (bind_Ok _ _ _ _ Hok) as ([] & _ & E4).
  rewrite E4 in Hok |- *. clear E4.
  destruct (straight_initial_fit w fr3) as (tf & Etf & Ftf & _).
  set (fr4 := snd (initial_fit w target_bounds fr3)) in *.
  destruct (emits_refine w fuel target_bounds fr4) as (tr_ & Etr & _).
  intros Hb.
  assert (Hall : tr (snd (refine w fuel target_bounds fr4))
                 = ts ++ [mkEvent (bolfi_fit 150) false; mkEvent sv false]
                      ++ tf ++ tr_).
  { rewrite Etr, Etf. unfold fr3, push. cbn [tr]. rewrite Hci, Ets.
    simpl. rewrite <- !app_assoc. reflexivity. }
  rewrite Hall in Hb |- *.
  rewrite !forallb_app in Hb.
  repeat (apply andb_true_iff in Hb; destruct Hb as [? Hb]).
  assert (Hc : covers (range 20) tr_)
    by (apply (refine_benign w fuel (range 20) fr4 tr_ Etr Hok Hb)).
  destruct Hc as [Hs Hc]. split.
  - rewrite !snapshots_app, (tuning_snapshots _ Fts),
      (tuning_snapshots _ Ftf), Hs.
    reflexivity.
  - unfold checkpoints.
    rewrite checkpoints_from_app, (tuning_checkpoints _ _ Fts).
    cbn [app].
    change (checkpoints_from ?l (?a :: ?b :: ?t))
      with (checkpoints_from l ([a; b] ++ t)).
    rewrite checkpoints_from_app.
    rewrite checkpoints_from_app, (tuning_checkpoints _ _ Ftf), Hc.
    reflexivity.
Qed.

End WholeRun.

(** ** Search-loop controller: schedule, retries and snapshots *)

(** Steps over the next external call of [H], in the case it returned. *)
Ltac ext_returns H :=
  match type of H with
  | context [ext ?w ?c ?f] =>
      let E := fresh "E" in
      destruct (ext_cases w c f) as [E|E]; rewrite E in H |- *; clear E;
      cbv beta iota in H |- *; [|discriminate H]
  end.

(** C2, amended.  In every run that ends normally and in which no call
    raises other than [bolfi.fit] and [save_bolfi], the checkpoints are at
    150 (the initial snapshot) and then at [150 + 50*i] for [i = 0..19]:
    150, 150, 200, ..., 1100.  Checkpoint [k] is at [150 + 50*(k-2)] for
    [k = 2..21]; the sequence is non-decreasing and ends at 1100. *)
Theorem checkpoint_schedule (w : world) (fuel : nat) :
  fst (run w fuel) = Ok tt ->
  forallb benign (tr (snd (run w fuel))) = true ->
  let cps := checkpoints (tr (snd (run w fuel))) in
  cps = 150 :: map (fun i => 150 + 50 * i) (range 20) /\
  nth 0 cps 0 = 150 /\
  (forall k, 2 <= k <= 21 ->
             nth (Z.to_nat (k - 1)) cps 0 = 150 + 50 * (k - 2)) /\
  StronglySorted Z.le cps /\
  last cps 0 = 1100.
Proof.
  intros Hok Hb. cbv zeta.
  destruct (run_benign w fuel Hok Hb) as [_ ->].
  split; [reflexivity|]. split; [reflexivity|].
  split; [|split; [|reflexivity]].
  - intros k Hk.
    assert (Hc : In k (map Z.of_nat (seq 2 20))).
    { apply in_map_iff. exists (Z.to_nat k). split; [lia|].
      apply in_seq. lia. }
    simpl in Hc.
    repeat (destruct Hc as [<-|Hc]; [reflexivity|]). contradiction.
  - vm_compute.
    repeat (constructor; [|repeat (constructor; [discriminate|]); constructor]).
    constructor.
Qed.

(** A run with a retry: the third [bolfi.fit] call (round [i = 1])
    raises once. *)
Lemma checkpoint_schedule_witness :
  fst (run (raise_on is_fit 2) 2) = Ok tt /\
  fit_targets (tr (snd (run (raise_on is_fit 2) 2)))
    = 150 :: 150 :: 200 :: 200
      :: map (fun i => 150 + 50 * i) (skipn 2 (range 20)) /\
  checkpoints (tr (snd (run (raise_on is_fit 2) 2)))
    = 150 :: map (fun i => 150 + 50 * i) (range 20).
Proof.
  split; [vm_compute; reflexivity|]. split; [vm_compute; reflexivity|].
  apply (checkpoint_schedule (raise_on is_fit 2) 2); vm_compute; reflexivity.
Defined.

(** C3.  The handler of the initial phase cancels the pending batches and
    then stops at the unbound name [batch_index]: in no run is the batch
    index ever assigned; the initial fit is called exactly once whatever
    it does, and when it raises the script ends with an exception instead
    of retrying; shown for every world, and on the run in which the first
    [bolfi.fit] call raises. *)
Theorem initial_retry_dies_on_batch_index :
  (forall w fuel,
      ~ In batches_set_next_batch_index (calls (tr (snd (run w fuel))))) /\
  (forall w fuel n fr,
      let r := collect_initial w (S fuel) n fr in
      (fst r = Ok tt /\
       tr (snd r) = tr fr ++ [mkEvent (bolfi_fit n) false]) \/
      (fst r = Raise (NameError "batch_index") /\
       tr (snd r) = tr fr ++ [mkEvent (bolfi_fit n) true;
                              mkEvent batches_cancel_pending false]) \/
      (fst r = Raise LibraryError /\
       tr (snd r) = tr fr ++ [mkEvent (bolfi_fit n) true;
                              mkEvent batches_cancel_pending true])) /\
  (forall fuel,
      let r := run (raise_on is_fit 0) (S fuel) in
      fst r = Raise (NameError "batch_index") /\
      fit_targets (tr (snd r)) = [150] /\
      first_raise (tr (snd r)) = Some (bolfi_fit 150) /\
      after_first_raise (tr (snd r)) = [mkEvent batches_cancel_pending false] /\
      snapshots (tr (snd r)) = []).
Proof.
  split; [|split].
  - intros w fuel Hin. unfold run in Hin.
    destruct (emits_main w fuel initial_frame) as (t & E & F).
    rewrite E in Hin. simpl in Hin.
    rewrite Forall_forall in F. exact (F _ Hin eq_refl).
  - intros w fuel n fr. apply collect_initial_cases.
  - intros fuel. vm_compute. repeat split; reflexivity.
Qed.

(** C4.  The retry of a refinement round reads the loop variable [i]
    again, and the seeding loop of an even round has overwritten it with
    6: on the run in which the re-tuning of round [i = 0] raises (the
    second [inst.optimize] call of the run), the exception is caught,
    'Exception!' is printed and the batches are reset, but the retry asks
    for 450 evidence points and not for the 150 of the round; the next
    round then asks for 200, below the 450 already reached. *)
Theorem refinement_retry_changes_target (fuel : nat) :
  let r := run (raise_on is_optimize 1) (S (S fuel)) in
  fst r = Ok tt /\
  first_raise (tr (snd r)) = Some inst_optimize /\
  last_fit None (before_first_raise (tr (snd r))) = Some 150 /\
  firstn 3 (after_first_raise (tr (snd r)))
    = [ mkEvent (print ["Exception!"]) false;
        mkEvent batches_reset false;
        mkEvent (bolfi_fit 450) false ] /\
  fit_targets (tr (snd r))
    = 150 :: 150 :: 450 :: map (fun i => 150 + 50 * i) (skipn 1 (range 20)) /\
  ~ In batches_set_next_batch_index (calls (tr (snd r))).
Proof.
  vm_compute. repeat split; try reflexivity.
  intros H. repeat (destruct H as [H|H]; [discriminate H|]). exact H.
Qed.

(** C5 as stated fails: on the run in which the re-tuning of round
    [i = 1] raises once (the third [inst.optimize] call), the retry
    writes BOLFI_7D_at_200.pkl a second time. *)
Lemma snapshot_overwritten_on_retry :
  let r := run (raise_on is_optimize 2) 2 in
  fst r = Ok tt /\
  count_occ string_dec (snapshots (tr (snd r))) "BOLFI_7D_at_200.pkl" = 2%nat /\
  ~ NoDup (snapshots (tr (snd r))).
Proof.
  cbv zeta. split; [vm_compute; reflexivity|].
  assert (E : count_occ string_dec
                (snapshots (tr (snd (run (raise_on is_optimize 2) 2))))
                "BOLFI_7D_at_200.pkl" = 2%nat) by (vm_compute; reflexivity).
  split; [exact E|].
  intros Hnd. rewrite (NoDup_count_occ string_dec) in Hnd.
  specialize (Hnd "BOLFI_7D_at_200.pkl"). rewrite E in Hnd. lia.
Qed.

(** The runs in which only [bolfi.fit] fails. *)
Lemma fit_failure_benign t :
  forallb fit_failure t = true -> forallb benign t = true.
Proof.
  induction t as [|e t IH]; [reflexivity|]. cbn [forallb].
  rewrite !andb_true_iff. intros [H1 H2]. split; [|apply IH; exact H2].
  unfold fit_failure in H1. unfold benign.
  apply orb_true_iff in H1. destruct H1 as [H1|H1]; rewrite H1;
    [reflexivity|]. rewrite orb_true_r. reflexivity.
Qed.

Lemma save_calls_snapshots t :
  forallb fit_failure t = true -> save_calls t = snapshots t.
Proof.
  induction t as [|[c r] t IH]; [reflexivity|]. cbn [forallb].
  rewrite andb_true_iff. intros [H1 H2].
  unfold save_calls, snapshots in *. cbn [flat_map ev_call ev_raised].
  rewrite (IH H2). unfold fit_failure in H1. cbn in H1.
  destruct c; try reflexivity. destruct r; [discriminate H1|reflexivity].
Qed.

(** C5, amended.  In every run that ends normally [save_bolfi] returned
    for BOLFI_7D_initial_150.pkl and, for every [i = 0..19], for
    BOLFI_7D_at_<150+50*i>.pkl.  When no call other than [bolfi.fit]
    raised, [save_bolfi] was called exactly 21 times, once for each of
    these files and in this order: files were only added and none was
    written twice.  When [save_bolfi] raised as well, and nothing else
    did, it still returned exactly once for each of the 21 files, in this
    order. *)
Theorem snapshots_written (w : world) (fuel : nat) :
  fst (run w fuel) = Ok tt ->
  let snaps := snapshots (tr (snd (run w fuel))) in
  In (initial_snapshot_name 150) snaps /\
  (forall i, 0 <= i < 20 -> In (snapshot_name (150 + 50 * i)) snaps) /\
  initial_snapshot_name 150 = "BOLFI_7D_initial_150.pkl" /\
  map (fun i => snapshot_name (150 + 50 * i)) (range 20)
    = map (fun n => "BOLFI_7D_at_" ++ str n ++ ".pkl")%string
          [150; 200; 250; 300; 350; 400; 450; 500; 550; 600;
           650; 700; 750; 800; 850; 900; 950; 1000; 1050; 1100] /\
  (forallb fit_failure (tr (snd (run w fuel))) = true ->
   save_calls (tr (snd (run w fuel)))
   = initial_snapshot_name 150
     :: map (fun i => snapshot_name (150 + 50 * i)) (range 20) /\
   NoDup (save_calls (tr (snd (run w fuel)))) /\
   List.length (save_calls (tr (snd (run w fuel)))) = 21%nat) /\
  (forallb benign (tr (snd (run w fuel))) = true ->
   snaps = initial_snapshot_name 150
           :: map (fun i => snapshot_name (150 + 50 * i)) (range 20) /\
   NoDup snaps).
Proof.
  intros Hok. cbv zeta.
  destruct (main_snapshots w fuel Hok) as [Hinit Hall].
  split; [exact Hinit|]. split; [exact Hall|].
  split; [reflexivity|]. split; [reflexivity|].
  assert (Hnd : NoDup (initial_snapshot_name 150
                       :: map (fun i => snapshot_name (150 + 50 * i))
                              (range 20))).
  { match goal with
    | |- NoDup ?l =>
        replace l with (nodup string_dec l) by (vm_compute; reflexivity)
    end.
    apply NoDup_nodup. }
  split.
  - intros Hf. rewrite (save_calls_snapshots _ Hf).
    destruct (run_benign w fuel Hok (fit_failure_benign _ Hf)) as [-> _].
    split; [reflexivity|]. split; [exact Hnd|reflexivity].
  - intros Hb. destruct (run_benign w fuel Hok Hb) as [-> _].
    split; [reflexivity|exact Hnd].
Qed.

(** Two runs with a retry: the [save_bolfi] call of round [i = 2]
    raises once, and the fit of round [i = 2] raises once. *)
Lemma snapshots_written_witness :
  fst (run (raise_on is_save 3) 2) = Ok tt /\
  In (snapshot_name (150 + 50 * 2))
     (snapshots (tr (snd (run (raise_on is_save 3) 2)))) /\
  NoDup (snapshots (tr (snd (run (raise_on is_save 3) 2)))) /\
  save_calls (tr (snd (run (raise_on is_fit 3) 2)))
  = initial_snapshot_name 150
    :: map (fun i => snapshot_name (150 + 50 * i)) (range 20).
Proof.
  assert (Hok : fst (run (raise_on is_save 3) 2) = Ok tt)
    by (vm_compute; reflexivity).
  assert (Hok' : fst (run (raise_on is_fit 3) 2) = Ok tt)
    by (vm_compute; reflexivity).
  pose proof (snapshots_written (raise_on is_save 3) 2 Hok) as H.
  pose proof (snapshots_written (raise_on is_fit 3) 2 Hok') as H'.
  cbv zeta in H, H'. destruct H as (_ & Hall & _ & _ & _ & Hnd).
  destruct H' as (_ & _ & _ & _ & Hf & _).
  split; [exact Hok|]. split; [|split].
  - apply Hall. lia.
  - apply Hnd. vm_compute. reflexivity.
  - apply Hf. vm_compute. reflexivity.
Defined.

(** C6.  A refinement attempt with odd [i] whose calls all return makes
    exactly the calls [odd_round_calls i]: after the fit, the snapshot and
    the noise setting, each of the 7 lengthscale dimensions 0..6 gets a
    fixed bounded interval, then the hyperparameters are randomized and
    optimized, and no lengthscale is seeded with bound range over
    evidence count.  In the order of the kernel dimensions (the sorted
    parameter names) [tmin] is dimension 6 with the interval (1e-6, 1e-3),
    1000 times narrower than the interval (1e-3, 1.0) of [Tf1] and [Tf2]
    (dimensions 0 and 1), and lying wholly below it. *)
Theorem odd_round_constraints (w : world) (bounds : list (Q * Q)) (fr : frame) :
  Z.odd (var_i fr) = true ->
  fst (refine_attempt w bounds fr) = Ok tt ->
  exists t,
    tr (snd (refine_attempt w bounds fr)) = tr fr ++ t /\
    quiet t /\
    calls t = odd_round_calls (var_i fr) /\
    map fst (lengthscale_bounds (calls t)) = range 7 /\
    (forall d b, In (d, b) (lengthscale_bounds (calls t)) ->
                 (0 < fst b)%Q /\ (fst b < snd b)%Q) /\
    (exists d_tmin d_Tf1 d_Tf2 b_tmin b_Tf1 b_Tf2,
        index_of "tmin" (parameter_names model_graph) = Some d_tmin /\
        index_of "Tf1" (parameter_names model_graph) = Some d_Tf1 /\
        index_of "Tf2" (parameter_names model_graph) = Some d_Tf2 /\
        assoc_Z (lengthscale_bounds (calls t)) d_tmin = Some b_tmin /\
        assoc_Z (lengthscale_bounds (calls t)) d_Tf1 = Some b_Tf1 /\
        assoc_Z (lengthscale_bounds (calls t)) d_Tf2 = Some b_Tf2 /\
        b_tmin = (1e-6, 1e-3)%Q /\
        (width b_Tf1 == 1000 * width b_tmin)%Q /\
        (width b_Tf2 == 1000 * width b_tmin)%Q /\
        (snd b_tmin <= fst b_Tf1)%Q /\
        (snd b_tmin <= fst b_Tf2)%Q) /\
    filter is_seeding (calls t) = [] /\
    skipn 12 (calls t) = [inst_randomize; inst_optimize].
Proof.
  intros Hodd Hok.
  assert (Hmod : (var_i fr mod 2 =? 0) = false).
  { rewrite Zmod_odd, Hodd. reflexivity. }
  unfold refine_attempt, retune in *.
  cbv [bind get_i set_iteration_accepted] in Hok |- *.
  do 2 ext_returns Hok. cbn [var_i push] in Hok |- *.
  do 3 ext_returns Hok. cbn [var_i push] in Hok |- *.
  rewrite Hmod in Hok |- *.
  do 9 ext_returns Hok.
  cbn [snd tr push]. eexists. split.
  { rewrite <- !app_assoc. cbn [app]. reflexivity. }
  split; [repeat constructor|].
  split; [reflexivity|].
  cbn [calls map ev_call lengthscale_bounds flat_map app].
  split; [reflexivity|]. split.
  { intros d b Hin. cbn [In] in Hin.
    repeat (destruct Hin as [Hin|Hin];
            [injection Hin as <- <-; split; reflexivity|]).
    contradiction. }
  split.
  { exists 6, 0, 1, (1e-6, 1e-3)%Q, (1e-3, 1.0)%Q, (1e-3, 1.0)%Q.
    repeat split; try reflexivity; discriminate. }
  split; reflexivity.
Qed.

(** The attempt of round [i = 1] when nothing raises. *)
Lemma odd_round_constraints_witness :
  Z.odd (var_i (mkFrame [] 1 false)) = true /\
  fst (refine_attempt calm target_bounds (mkFrame [] 1 false)) = Ok tt /\
  exists t,
    tr (snd (refine_attempt calm target_bounds (mkFrame [] 1 false))) = t /\
    calls t = odd_round_calls 1.
Proof.
  split; [reflexivity|]. split; [reflexivity|].
  destruct (odd_round_constraints calm target_bounds (mkFrame [] 1 false)
              eq_refl eq_refl) as (t & Et & _ & Hc & _).
  exists t. split; [exact Et | exact Hc].
Defined.

(** ** Simulator adapter *)

Section SimulatorAdapterFacts.

Variable float : Type.
Variable numpy_exp : float -> float.
Variable float_str : float -> string.
Variable lit_1e10 : float.
Variable RandomState : Type.
Variable disk : Type.
Variable run_CQ_fluid_simulation_vTf :
  disk -> sim_kwargs float -> outcome (h5out float) * disk.

(** [numpy.squeeze] never leaves a one-dimensional array of length one. *)
Lemma squeeze_not_one (a : ndarray float) (v : list float) :
  squeeze a = nd1 v -> List.length v <> 1%nat.
Proof.
  destruct a as [x|u|rows]; cbn [squeeze].
  - discriminate.
  - destruct u as [|x [|y u]]; intros H; try discriminate H;
      injection H as <-; cbn [List.length]; lia.
  - destruct rows as [|r [|r' rows]].
    + intros H. injection H as <-. cbn [List.length]. lia.
    + destruct r as [|x [|y r]]; intros H; try discriminate H;
        injection H as <-; cbn [List.length]; lia.
    + assert (E : squeeze (nd2 (r :: r' :: rows))
                  = if forallb (fun r0 => Nat.eqb (List.length r0) 1)
                               (r :: r' :: rows)
                    then nd1 (List.concat (r :: r' :: rows))
                    else nd2 (r :: r' :: rows))
        by (destruct r as [|x [|y r]]; reflexivity).
      change (squeeze (nd2 (r :: r' :: rows)) = nd1 v ->
              List.length v <> 1%nat).
      rewrite E. clear E.
      destruct (forallb (fun r0 => Nat.eqb (List.length r0) 1)
                        (r :: r' :: rows)) eqn:Hall; [|discriminate].
      intros H. injection H as <-. cbn [forallb] in Hall.
      apply andb_true_iff in Hall. destruct Hall as [H1 Hall].
      apply andb_true_iff in Hall. destruct Hall as [H2 _].
      apply Nat.eqb_eq in H1, H2. cbn [List.concat].
      rewrite !length_app. lia.
Qed.


(** A failure of the simulation passes through [sim_fn] unchanged. *)
Lemma sim_fn_propagates
    (d d' : disk) (Tf1 Tf2 tmin nAr log_walltime alpha beta : float)
    (batch_size : Z) (random_state : option RandomState) (e : exn) :
  (forall kw, run_CQ_fluid_simulation_vTf d kw = (Raise e, d')) ->
  sim_fn numpy_exp float_str lit_1e10 run_CQ_fluid_simulation_vTf d
         [Tf1] [Tf2] [tmin] [nAr] [log_walltime] [alpha] [beta]
         batch_size random_state
  = (Raise e, d').
Proof.
  intros H. unfold sim_fn, sim_fn_kwargs. cbn -[String.append].
  rewrite H. reflexivity.
Qed.

(** C9.  [sim_fn] never reads [batch_size] and [random_state]: on the
    same outside state and the same seven parameter arrays, two calls
    that differ only in these two arguments return the same result and
    leave the same outside state. *)
Theorem sim_fn_ignores_batch_size_random_state
    (d : disk) (Tf1 Tf2 tmin nAr log_walltime alpha beta : list float)
    (batch_size batch_size' : Z)
    (random_state random_state' : option RandomState) :
  sim_fn numpy_exp float_str lit_1e10 run_CQ_fluid_simulation_vTf d
         Tf1 Tf2 tmin nAr log_walltime alpha beta batch_size random_state
  = sim_fn numpy_exp float_str lit_1e10 run_CQ_fluid_simulation_vTf d
           Tf1 Tf2 tmin nAr log_walltime alpha beta batch_size' random_state'.
Proof.
  unfold sim_fn.
  destruct (sim_fn_kwargs float numpy_exp float_str lit_1e10
              Tf1 Tf2 tmin nAr log_walltime alpha beta) as [kw|e|];
    reflexivity.
Qed.

End SimulatorAdapterFacts.



(** ** Optimum extractor *)

Section OptimumExtractorFacts.

Variable float : Type.
Variable entropy : Type.
Variable differential_evolution :
  entropy -> de_args float -> outcome (OptimizeResult float).


(** The default population size is 100. *)
Lemma find_optimum_value_default_popsize
    (e : entropy) (target_model : list float -> list (list float))
    (bounds : list (float * float)) :
  find_optimum_value_default float entropy differential_evolution
    e target_model bounds
  = find_optimum_value float entropy differential_evolution
      e target_model bounds 100.
Proof. reflexivity. Qed.

(** A failure of the optimizer passes through unchanged. *)
Lemma find_optimum_value_propagates
    (e : entropy) (target_model : list float -> list (list float))
    (bounds : list (float * float)) (starting_points : Z) (x : exn) :
  (forall args, differential_evolution e args = Raise x) ->
  find_optimum_value float entropy differential_evolution
    e target_model bounds starting_points = Raise x.
Proof. intros H. unfold find_optimum_value. rewrite H. reflexivity. Qed.

End OptimumExtractorFacts.



(** ** Search-loop controller: the calls before the refinement loop *)

Section Halting.

Variable w : world.

Lemma halting_pure {A} (m : M A) (a : A) :
  (forall fr, fst (m fr) = Ok a /\ tr (snd (m fr)) = tr fr) -> halting m.
Proof.
  intros H fr. exists []. destruct (H fr) as [H1 H2].
  rewrite H1, H2, app_nil_r. split; [reflexivity|].
  left. split; [eauto|constructor].
Qed.

Lemma halting_get_i : halting get_i.
Proof.
  intros fr. exists []. rewrite app_nil_r. split; [reflexivity|].
  left. split; [simpl; eauto|constructor].
Qed.

Lemma halting_ext c : halting (ext w c).
Proof.
  intros fr. exists [mkEvent c (w (tr fr) c)]. split; [reflexivity|].
  unfold ext. destruct (w (tr fr) c); simpl.
  - right. split; [reflexivity|]. exists [], c.
    split; [reflexivity|constructor].
  - left. split; [eauto|]. repeat constructor.
Qed.

Lemma halting_bind {A B} (c : M A) (k : A -> M B) :
  halting c -> (forall a, halting (k a)) -> halting (bind c k).
Proof.
  intros Hc Hk fr. unfold bind.
  destruct (Hc fr) as (t1 & E1 & O1).
  destruct (c fr) as [[a|e|] fr'] eqn:E; simpl in *.
  - destruct (Hk a fr') as (t2 & E2 & O2).
    exists (t1 ++ t2). split; [rewrite E2, E1, app_assoc; reflexivity|].
    destruct O1 as [[_ Q1]|[He _]]; [|discriminate].
    destruct O2 as [[Ha Q2]|[He (t' & c0 & -> & Q')]].
    + left. split; [exact Ha|]. apply Forall_app; auto.
    + right. split; [exact He|]. exists (t1 ++ t'), c0.
      split; [apply app_assoc|]. apply Forall_app; auto.
  - exists t1. split; [exact E1|].
    destruct O1 as [[[a Ha] _]|[He X]]; [discriminate|].
    right. split; [congruence|exact X].
  - destruct O1 as [[[a Ha] _]|[He _]]; discriminate.
Qed.

Lemma halting_for_each {A} (xs : list A) (body : A -> M unit) :
  (forall x, halting (body x)) -> halting (for_each xs body).
Proof.
  intros Hb. induction xs as [|x xs IH]; simpl.
  - apply (halting_pure _ tt); intros; split; reflexivity.
  - apply halting_bind; [apply Hb|intros _; exact IH].
Qed.

Lemma halting_ext_fun {A} (m m' : M A) :
  (forall fr, m fr = m' fr) -> halting m' -> halting m.
Proof. intros E H fr. rewrite E. apply H. Qed.

End Halting.

Ltac halting_step :=
  cbv beta;
  lazymatch goal with
  | |- halting (bind _ _) => apply halting_bind; [|intros ?]
  | |- halting (ext _ _) => apply halting_ext
  | |- halting (ret ?a) =>
      apply (halting_pure _ a); intros; split; reflexivity
  | |- halting get_i => apply halting_get_i
  | |- halting (set_i _) =>
      apply (halting_pure _ tt); intros; split; reflexivity
  | |- halting (set_iteration_accepted _) =>
      apply (halting_pure _ tt); intros; split; reflexivity
  | |- halting (for_each _ _) => apply halting_for_each; intros ?
  | |- halting (seed_lengthscales _ target_bounds) =>
      apply (halting_ext_fun _ _ (seed_lengthscales_unrolled _)); unfold seeds
  | |- halting (if ?b then _ else _) => destruct b
  end.

Section HaltingPieces.

Variable w : world.

Lemma halting_get_model : halting (get_model w).
Proof. unfold get_model. repeat halting_step. Qed.

Lemma halting_setup : halting (setup w).
Proof.
  unfold setup. halting_step; [halting_step|].
  halting_step; [apply halting_get_model|]. repeat halting_step.
Qed.

Lemma halting_initial_fit : halting (initial_fit w target_bounds).
Proof. unfold initial_fit. repeat halting_step. Qed.

Lemma halting_retune : halting (retune w target_bounds).
Proof. unfold retune. repeat halting_step. Qed.

Lemma halting_refine_attempt : halting (refine_attempt w target_bounds).
Proof.
  unfold refine_attempt. do 4 (halting_step; [halting_step|]).
  halting_step; [apply halting_retune|]. halting_step.
Qed.

Lemma halting_refine_handler : halting (refine_handler w).
Proof. unfold refine_handler. repeat halting_step. Qed.

End HaltingPieces.

Section Prelude.

Variable w : world.

Lemma setup_trace fr b :
  fst (setup w fr) = Ok b ->
  tr (snd (setup w fr)) = tr fr ++ map returned setup_calls.
Proof.
  intros H. unfold setup, get_model in *.
  cbv [bind for_each priors ret] in H |- *.
  repeat ext_returns H.
  cbn [snd tr push]. rewrite <- !app_assoc. reflexivity.
Qed.

Lemma last_cons {A} (a d : A) (l : list A) : last (a :: l) d = last l a.
Proof.
  revert a d. induction l as [|b l IH]; intros a d; [reflexivity|].
  change (last (a :: b :: l) d) with (last (b :: l) d).
  rewrite !IH. reflexivity.
Qed.

Lemma for_each_ext_trace {A} (f : A -> call) (g : A -> Z) xs fr :
  let loop := for_each xs (fun x => bind (set_i (g x))
                                         (fun _ => ext w (f x))) in
  fst (loop fr) = Ok tt ->
  tr (snd (loop fr)) = tr fr ++ map (fun x => returned (f x)) xs /\
  var_i (snd (loop fr)) = last (map g xs) (var_i fr).
Proof.
  cbv zeta. revert fr. induction xs as [|x xs IH]; intros fr H.
  - simpl. rewrite app_nil_r. auto.
  - set (body := fun x => bind (set_i (g x)) (fun _ => ext w (f x))) in *.
    set (fr0 := mkFrame (tr fr) (g x) (iteration_accepted fr)).
    assert (Eb : for_each (x :: xs) body fr
                 = match ext w (f x) fr0 with
                   | (Ok _, fr') => for_each xs body fr'
                   | (Raise e, fr') => (Raise e, fr')
                   | (OutOfFuel, fr') => (OutOfFuel, fr')
                   end) by reflexivity.
    rewrite Eb in H |- *. clear Eb.
    destruct (ext_cases w (f x) fr0) as [E|E]; rewrite E in H |- *;
      [|discriminate H].
    destruct (IH _ H) as [Et Ei]. split.
    + rewrite Et. cbn [tr push map]. unfold fr0. cbn [tr].
      rewrite <- app_assoc. reflexivity.
    + rewrite Ei. cbn [var_i push map]. rewrite last_cons. reflexivity.
Qed.

Lemma seeds_trace fr :
  fst (seeds w fr) = Ok tt ->
  tr (snd (seeds w fr)) = tr fr ++ map returned seed_calls /\
  var_i (snd (seeds w fr)) = 6.
Proof.
  intros H. unfold seeds in *.
  destruct (for_each_ext_trace
              (fun kb => lengthscale_setitem (fst kb)
                           (over_n_evidence (width (snd kb))))
              fst (combine (range 7) target_bounds) fr H) as [Et Ei].
  split.
  - etransitivity; [exact Et|]. unfold seed_calls. rewrite map_map.
    reflexivity.
  - etransitivity; [exact Ei|]. reflexivity.
Qed.

Lemma initial_fit_trace fr :
  fst (initial_fit w target_bounds fr) = Ok tt ->
  tr (snd (initial_fit w target_bounds fr))
  = tr fr ++ map returned initial_fit_calls.
Proof.
  intros H. unfold initial_fit in *.
  cbv [bind] in H |- *.
  do 4 ext_returns H.
  rewrite seed_lengthscales_unrolled in H |- *.
  match type of H with
  | context [seeds w ?f0] =>
      destruct (seeds w f0) as [[[]|e|] fr'] eqn:Es; try discriminate H;
      pose proof (seeds_trace f0) as Hs; rewrite Es in Hs;
      destruct (Hs eq_refl) as [Et _]; clear Hs
  end.
  ext_returns H.
  cbn [snd tr push] in Et |- *. rewrite Et.
  unfold initial_fit_calls. rewrite !map_app, <- !app_assoc. reflexivity.
Qed.

Lemma bind_unfold {A B} (c : M A) (k : A -> M B) fr :
  bind c k fr = match c fr with
                | (Ok a, fr') => k a fr'
                | (Raise e, fr') => (Raise e, fr')
                | (OutOfFuel, fr') => (OutOfFuel, fr')
                end.
Proof. reflexivity. Qed.

(** The script up to the refinement loop: either every call of the
    prelude returned and the run goes on with the refinement loop, or the
    run ends there. *)
Lemma main_cases fuel :
  (exists fr, tr fr = map returned prelude_calls /\
              run w fuel = refine w fuel target_bounds fr) \/
  (exists e, fst (run w fuel) = Raise e) \/
  (fuel = 0%nat /\ fst (run w fuel) = OutOfFuel).
Proof.
  unfold run, main. rewrite bind_unfold.
  destruct (halting_setup w initial_frame) as (ts & _ & Os).
  pose proof (setup_trace initial_frame) as Hst.
  pose proof (setup_Ok w initial_frame) as Hsb.
  destruct (setup w initial_frame) as [[b|e|] fr1]; cbn [fst snd] in *.
  2:{ right. left. eexists. reflexivity. }
  2:{ destruct Os as [[[a Ha] _]|[He _]]; discriminate. }
  specialize (Hsb b eq_refl). subst b. specialize (Hst _ eq_refl).
  clear Os ts. cbn [tr initial_frame app] in Hst.
  destruct fuel as [|fuel]; [right; right; split; reflexivity|].
  rewrite bind_unfold.
  pose proof (collect_initial_cases w fuel 150 fr1) as Hci. cbv zeta in Hci.
  destruct (collect_initial w (S fuel) 150 fr1) as [[[]|e|] fr2];
    cbn [fst snd] in *.
  2:{ right. left. eexists. reflexivity. }
  2:{ destruct Hci as [[E _]|[[E _]|[E _]]]; discriminate. }
  destruct Hci as [[_ Hci]|[[E _]|[E _]]]; try discriminate.
  rewrite bind_unfold.
  set (sv := save_bolfi (initial_snapshot_name 150)).
  destruct (ext_cases w sv fr2) as [E|E]; rewrite E.
  2:{ right. left. eexists. reflexivity. }
  rewrite bind_unfold.
  destruct (halting_initial_fit w (push sv false fr2)) as (tf & _ & Of).
  pose proof (initial_fit_trace (push sv false fr2)) as Hif.
  destruct (initial_fit w target_bounds (push sv false fr2))
    as [[[]|e|] fr4]; cbn [fst snd] in *.
  2:{ right. left. eexists. reflexivity. }
  2:{ destruct Of as [[[a Ha] _]|[He _]]; discriminate. }
  left. exists fr4. split; [|reflexivity].
  rewrite (Hif eq_refl). cbn [tr push]. rewrite Hci, Hst.
  unfold prelude_calls. rewrite !map_app, <- !app_assoc. reflexivity.
Qed.

End Prelude.

(** X1.  A run that ends normally has first made the calls of lines
    150-215, in the order of [prelude_calls], and every one of them
    returned: the model graph of [get_model], the kernel, the surrogate
    and BOLFI, one [bolfi.fit] for the 150 initial points, the initial
    snapshot and the initial fit of the surrogate.  None of these calls
    is ever repeated, so a run in which one of them raises does not end
    normally. *)
Theorem completed_run_prelude (w : world) (fuel : nat) :
  fst (run w fuel) = Ok tt ->
  exists rest,
    tr (snd (run w fuel)) = map returned prelude_calls ++ rest.
Proof.
  intros Hok.
  destruct (main_cases w fuel) as [(fr & Et & E)|[[e He]|[_ He]]].
  - rewrite E.
    destruct (emits_refine w fuel target_bounds fr) as (t & Ht & _).
    exists t. rewrite Ht, Et. reflexivity.
  - rewrite He in Hok. discriminate.
  - rewrite He in Hok. discriminate.
Qed.

(** A run with a retry: the re-tuning of round [i = 0] raises once. *)
Lemma completed_run_prelude_witness :
  fst (run (raise_on is_optimize 1) 2) = Ok tt /\
  exists rest,
    tr (snd (run (raise_on is_optimize 1) 2))
    = map returned prelude_calls ++ rest.
Proof.
  split; [vm_compute; reflexivity|].
  apply (completed_run_prelude (raise_on is_optimize 1) 2).
  vm_compute. reflexivity.
Defined.

(** ** Search-loop controller: invariants of every run *)

Section PostRules.

Variable w : world.
Variable J : Z -> Prop.
Variable Q : outcome unit -> trace -> Prop.

Hypothesis Q_nil : Q (Ok tt) [].
Hypothesis Q_app : forall o t1 t2, Q (Ok tt) t1 -> Q o t2 -> Q o (t1 ++ t2).

Lemma post_pure {A} (m : M A) :
  (forall fr, (exists a, fst (m fr) = Ok a) /\ tr (snd (m fr)) = tr fr /\
              var_i (snd (m fr)) = var_i fr) ->
  post J Q m.
Proof.
  intros H fr HI. destruct (H fr) as [[a Ha] [Ht Hi]].
  exists []. rewrite Ha, Ht, Hi, app_nil_r. auto.
Qed.

Lemma post_ret {A} (a : A) : post J Q (ret a).
Proof. apply post_pure. intros fr. simpl. eauto. Qed.

Lemma post_set_iteration_accepted b : post J Q (set_iteration_accepted b).
Proof. apply post_pure. intros fr. simpl. eauto. Qed.

Lemma post_set_i v : J v -> post J Q (set_i v).
Proof.
  intros Hv fr _. exists []. simpl. rewrite app_nil_r. auto.
Qed.

Lemma post_get_i {B} (k : Z -> M B) :
  (forall i, J i -> post J Q (k i)) -> post J Q (bind get_i k).
Proof. intros H fr HI. exact (H (var_i fr) HI fr HI). Qed.

Lemma post_lift {A} (r : outcome A) : Q (forget r) [] -> post J Q (lift r).
Proof.
  intros H fr HI. exists []. simpl. rewrite app_nil_r. auto.
Qed.

Lemma post_ext c :
  Q (Ok tt) [mkEvent c false] -> Q (Raise LibraryError) [mkEvent c true] ->
  post J Q (ext w c).
Proof.
  intros H0 H1 fr HI. exists [mkEvent c (w (tr fr) c)].
  unfold ext. destruct (w (tr fr) c); simpl; auto.
Qed.

Lemma post_bind {A B} (c : M A) (k : A -> M B) :
  post J Q c -> (forall a, post J Q (k a)) -> post J Q (bind c k).
Proof.
  intros Hc Hk fr HI. rewrite bind_unfold.
  destruct (Hc fr HI) as (t1 & E1 & Q1 & I1).
  destruct (c fr) as [[a|e|] fr']; cbn [fst snd forget] in *.
  - destruct (Hk a fr' I1) as (t2 & E2 & Q2 & I2).
    exists (t1 ++ t2). rewrite E2, E1, app_assoc. auto.
  - exists t1. auto.
  - exists t1. auto.
Qed.

(** A handler entered after any exception of the body. *)
Lemma post_try_except (body handler : M unit) :
  (forall e t, Q (Raise e) t -> Q (Ok tt) t) ->
  post J Q body -> post J Q handler -> post J Q (try_except body handler).
Proof.
  intros Hcaught Hb Hh fr HI. unfold try_except.
  destruct (Hb fr HI) as (t1 & E1 & Q1 & I1).
  destruct (body fr) as [[[]|e|] fr']; cbn [fst snd forget] in *.
  - exists t1. auto.
  - destruct (Hh fr' I1) as (t2 & E2 & Q2 & I2).
    exists (t1 ++ t2). rewrite E2, E1, app_assoc. eauto.
  - exists t1. auto.
Qed.

Lemma post_while_rounds fuel (body : M unit) :
  Q OutOfFuel [] -> post J Q body -> post J Q (while_rounds fuel body).
Proof.
  intros Hoof Hb. induction fuel as [|fuel IH]; intros fr HI.
  - exists []. simpl. rewrite app_nil_r. auto.
  - cbn [while_rounds].
    destruct (Hb fr HI) as (t1 & E1 & Q1 & I1).
    destruct (body fr) as [[[]|e|] fr']; cbn [fst snd forget] in *.
    + destruct (iteration_accepted fr').
      * exists t1. auto.
      * destruct (IH fr' I1) as (t2 & E2 & Q2 & I2).
        exists (t1 ++ t2). rewrite E2, E1, app_assoc. auto.
    + exists t1. auto.
    + exists t1. auto.
Qed.

Lemma post_while_not_accepted fuel (body : M unit) :
  post J Q (while_rounds fuel body) ->
  post J Q (while_not_accepted fuel body).
Proof.
  intros H fr HI. unfold while_not_accepted.
  destruct (iteration_accepted fr); [|apply H; exact HI].
  exists []. simpl. rewrite app_nil_r. auto.
Qed.

Lemma post_for_i xs (body : M unit) :
  Forall J xs -> post J Q body -> post J Q (for_i xs body).
Proof.
  intros Hxs Hb. induction Hxs as [|x xs Hx _ IH]; cbn [for_i].
  - apply post_ret.
  - apply post_bind; [apply post_set_i; exact Hx|intros _].
    apply post_bind; [exact Hb|intros _; exact IH].
Qed.

Lemma post_for_each {A} (xs : list A) (body : A -> M unit) :
  (forall x, post J Q (body x)) -> post J Q (for_each xs body).
Proof.
  intros Hb. induction xs as [|x xs IH]; cbn [for_each].
  - apply post_ret.
  - apply post_bind; [apply Hb|intros _; exact IH].
Qed.

End PostRules.

Lemma In_range x n : In x (range n) <-> 0 <= x < Z.of_nat n.
Proof.
  unfold range. rewrite in_map_iff. split.
  - intros (k & <- & Hk). apply in_seq in Hk. lia.
  - intros H. exists (Z.to_nat x). split; [lia|]. apply in_seq. lia.
Qed.

Lemma scheduled_nil o : scheduled o [].
Proof. constructor. Qed.

Lemma scheduled_app o o' t1 t2 :
  scheduled o' t1 -> scheduled o t2 -> scheduled o (t1 ++ t2).
Proof.
  unfold scheduled, calls. rewrite map_app. intros. apply Forall_app. auto.
Qed.

Lemma scheduled_one o c b : on_schedule c -> scheduled o [mkEvent c b].
Proof. intros H. repeat constructor. exact H. Qed.

Lemma in_rounds_range n : (n <= 20)%nat -> Forall in_rounds (range n).
Proof.
  intros Hn. apply Forall_forall. intros x Hx. apply In_range in Hx.
  unfold in_rounds. lia.
Qed.

Lemma any_i_all xs : Forall any_i xs.
Proof. apply Forall_forall. intros x _. exact I. Qed.

(** One step through the controller's code for a postcondition that
    does not look at the outcome; [nil], [app] and [one] are its rules
    for the empty stretch, for concatenation and for a single call. *)
Ltac post_step nil app one :=
  cbv beta;
  lazymatch goal with
  | |- post _ _ (bind get_i _) => apply post_get_i; intros ? ?
  | |- post _ _ (bind _ _) =>
      apply post_bind; [intros; eapply app; eassumption| |intros ?]
  | |- post _ _ (ext _ _) =>
      apply post_ext; apply one; try first [exact I|reflexivity]
  | |- post _ _ (ret _) => apply post_ret; apply nil
  | |- post _ _ (lift _) => apply post_lift; apply nil
  | |- post _ _ (set_iteration_accepted _) =>
      apply post_set_iteration_accepted; apply nil
  | |- post _ _ (for_each _ _) =>
      apply post_for_each;
      [apply nil|intros; eapply app; eassumption|intros ?]
  | |- post _ _ (for_i (range _) _) =>
      apply post_for_i;
      [apply nil|intros; eapply app; eassumption
      |first [apply in_rounds_range; lia|apply any_i_all]|]
  | |- post _ _ (while_not_accepted _ _) =>
      apply post_while_not_accepted;
      [apply nil
      |apply post_while_rounds;
       [intros; eapply app; eassumption|apply nil|]]
  | |- post _ _ (try_except _ _) =>
      apply post_try_except;
      [intros; eapply app; eassumption|intros ? ? ?; assumption| |]
  | |- post _ _ (if ?b then _ else _) => destruct b
  end.

Ltac sched_step := post_step scheduled_nil scheduled_app scheduled_one.

Section Schedule.

Variable w : world.

Lemma scheduled_seed_lengthscales bounds :
  post in_rounds scheduled (seed_lengthscales w bounds).
Proof. unfold seed_lengthscales. repeat sched_step. Qed.

Lemma scheduled_setup : post in_rounds scheduled (setup w).
Proof. unfold setup, get_model. repeat sched_step. Qed.

Lemma scheduled_collect_initial fuel :
  post in_rounds scheduled (collect_initial w fuel 150).
Proof.
  unfold collect_initial. repeat sched_step.
  all: exists 0; unfold in_rounds; split; [lia|reflexivity].
Qed.

Lemma scheduled_retune bounds : post in_rounds scheduled (retune w bounds).
Proof.
  unfold retune. repeat sched_step; apply scheduled_seed_lengthscales.
Qed.

Lemma scheduled_refine_try bounds :
  post in_rounds scheduled (refine_try w bounds).
Proof.
  unfold refine_try, refine_attempt, refine_handler.
  sched_step.
  - sched_step. sched_step.
    + sched_step; simpl; eauto.
    + sched_step. sched_step.
      * sched_step; simpl; right; eauto.
      * sched_step; [apply scheduled_retune|sched_step].
  - repeat sched_step.
Qed.

Lemma scheduled_refine fuel bounds :
  post in_rounds scheduled (refine w fuel bounds).
Proof.
  unfold refine, refine_round. repeat sched_step.
  apply scheduled_refine_try.
Qed.

Lemma scheduled_main fuel : post in_rounds scheduled (main w fuel).
Proof.
  unfold main, initial_fit. sched_step; [apply scheduled_setup|].
  sched_step; [apply scheduled_collect_initial|].
  sched_step; [sched_step; left; reflexivity|].
  sched_step; [|apply scheduled_refine].
  repeat sched_step. apply scheduled_seed_lengthscales.
Qed.

End Schedule.

(** X6.  Whatever raises and however the run ends, [bolfi.fit] is only
    ever asked for [150 + 50*k] evidence points with [k = 0..19], a
    multiple of 50 between 150 and 1100, and [save_bolfi] is only ever
    given the name of the initial snapshot or of the snapshot of one of
    the 20 rounds; this holds also for the retries that read the loop
    variable after the seeding loop has overwritten it. *)
Theorem evidence_targets_on_schedule (w : world) (fuel : nat) :
  let cs := calls (tr (snd (run w fuel))) in
  (forall n, In (bolfi_fit n) cs ->
             150 <= n <= 1100 /\ n mod 50 = 0 /\
             In n (map (fun k => 150 + 50 * k) (range 20))) /\
  (forall s, In (save_bolfi s) cs ->
             s = initial_snapshot_name 150 \/
             In s (map (fun k => snapshot_name (150 + 50 * k)) (range 20))).
Proof.
  cbv zeta. unfold run.
  destruct (scheduled_main w fuel initial_frame) as (t & Et & F & _).
  { unfold in_rounds. simpl. lia. }
  rewrite Et. cbn [tr initial_frame app].
  unfold scheduled in F. rewrite Forall_forall in F.
  split.
  - intros n Hn. destruct (F _ Hn) as (k & Hk & ->). unfold in_rounds in Hk.
    split; [lia|]. split.
    + replace (150 + 50 * k) with ((3 + k) * 50) by lia.
      apply Z.mod_mul. lia.
    + apply in_map_iff. exists k. split; [reflexivity|].
      apply In_range. lia.
  - intros s Hs. destruct (F _ Hs) as [->|(k & Hk & ->)]; [left; reflexivity|].
    right. apply in_map_iff. exists k. split; [reflexivity|].
    apply In_range. unfold in_rounds in Hk. lia.
Qed.

Lemma paired_from_weaken p t :
  paired_from None t = true -> paired_from p t = true.
Proof.
  destruct t as [|e t]; [reflexivity|]. cbn [paired_from].
  rewrite !andb_true_iff. intros [H1 H2]. split; [|exact H2].
  unfold save_follows_fit in *. destruct (ev_call e); auto; discriminate.
Qed.

Lemma paired_from_app p t1 t2 :
  paired_from p t1 = true -> paired_from None t2 = true ->
  paired_from p (t1 ++ t2) = true.
Proof.
  revert p. induction t1 as [|e t1 IH]; intros p H1 H2.
  - apply paired_from_weaken. exact H2.
  - cbn [paired_from app] in *. rewrite andb_true_iff in *.
    destruct H1 as [H1 H1']. split; [exact H1|]. apply IH; assumption.
Qed.

Lemma paired_nil o : paired o [].
Proof. reflexivity. Qed.

Lemma paired_app o o' t1 t2 :
  paired o' t1 -> paired o t2 -> paired o (t1 ++ t2).
Proof. unfold paired. apply paired_from_app. Qed.

Lemma paired_one o c b : is_save c = false -> paired o [mkEvent c b].
Proof.
  intros H. unfold paired. cbn. unfold save_follows_fit. cbn.
  destruct c; try reflexivity. discriminate H.
Qed.

Lemma paired_from_split p t1 e t2 :
  paired_from p (t1 ++ e :: t2) = true ->
  save_follows_fit (last (map Some t1) p) e = true.
Proof.
  revert p. induction t1 as [|a t1 IH]; intros p H.
  - cbn in H |- *. apply andb_true_iff in H. tauto.
  - cbn [app paired_from] in H. apply andb_true_iff in H.
    destruct H as [_ H]. cbn [map]. rewrite last_cons. apply IH. exact H.
Qed.

Lemma last_Some {A} (l : list A) (x : A) :
  last (map Some l) None = Some x -> exists l0, l = l0 ++ [x].
Proof.
  induction l as [|a l _] using rev_ind; [discriminate|].
  rewrite map_app. cbn [map]. rewrite last_last. intros [= ->]. eauto.
Qed.

Ltac pair_step := post_step paired_nil paired_app paired_one.

Section Paired.

Variable w : world.

Lemma paired_seed_lengthscales bounds :
  post any_i paired (seed_lengthscales w bounds).
Proof. unfold seed_lengthscales. repeat pair_step. Qed.

Lemma paired_setup : post any_i paired (setup w).
Proof. unfold setup, get_model. repeat pair_step. Qed.

Lemma paired_retune bounds : post any_i paired (retune w bounds).
Proof.
  unfold retune. repeat pair_step; apply paired_seed_lengthscales.
Qed.

Lemma paired_initial_fit bounds : post any_i paired (initial_fit w bounds).
Proof.
  unfold initial_fit. repeat pair_step; apply paired_seed_lengthscales.
Qed.

(** A fit followed by the snapshot named after its target, and then
    code that keeps the pairing. *)
Lemma paired_fit_save {A} n s (k : M A) fr :
  names_target s n = true ->
  post any_i paired k ->
  exists t,
    tr (snd (bind (ext w (bolfi_fit n))
                  (fun _ => bind (ext w (save_bolfi s)) (fun _ => k)) fr))
    = tr fr ++ t /\ paired_from None t = true.
Proof.
  intros Hn Hk. rewrite bind_unfold.
  destruct (ext_cases w (bolfi_fit n) fr) as [E|E]; rewrite E.
  2:{ exists [mkEvent (bolfi_fit n) true]. split; reflexivity. }
  rewrite bind_unfold.
  set (fr1 := push (bolfi_fit n) false fr).
  destruct (ext_cases w (save_bolfi s) fr1) as [E1|E1]; rewrite E1.
  2:{ exists [mkEvent (bolfi_fit n) false; mkEvent (save_bolfi s) true].
      split; [cbn [snd tr push fr1]; rewrite <- app_assoc; reflexivity|].
      cbn. unfold save_follows_fit. cbn. rewrite Hn. reflexivity. }
  destruct (Hk (push (save_bolfi s) false fr1) I) as (t & Et & Qt & _).
  exists ([mkEvent (bolfi_fit n) false; mkEvent (save_bolfi s) false] ++ t).
  split.
  - rewrite Et. cbn [snd tr push fr1]. rewrite <- !app_assoc. reflexivity.
  - apply paired_from_app; [|exact Qt].
    cbn. unfold save_follows_fit. cbn. rewrite Hn. reflexivity.
Qed.

Lemma names_target_round n : names_target (snapshot_name n) n = true.
Proof. unfold names_target. rewrite String.eqb_refl. reflexivity. Qed.

Lemma names_target_initial n :
  names_target (initial_snapshot_name n) n = true.
Proof.
  unfold names_target. rewrite (String.eqb_refl (initial_snapshot_name n)).
  apply orb_true_r.
Qed.

Lemma paired_refine_attempt bounds :
  post any_i paired (refine_attempt w bounds).
Proof.
  intros fr _.
  destruct (paired_fit_save (150 + 50 * var_i fr)
              (snapshot_name (150 + 50 * var_i fr))
              (bind (retune w bounds) (fun _ => set_iteration_accepted true))
              fr (names_target_round _)) as (t & Et & Qt).
  { repeat pair_step. apply paired_retune. }
  exists t. split; [exact Et|]. split; [exact Qt|exact I].
Qed.

Lemma paired_refine fuel bounds : post any_i paired (refine w fuel bounds).
Proof.
  unfold refine, refine_round, refine_try, refine_handler.
  repeat pair_step. apply paired_refine_attempt.
Qed.

Lemma paired_main fuel : post any_i paired (main w fuel).
Proof.
  unfold main. pair_step; [apply paired_setup|].
  intros fr _.
  assert (Hrest : post any_i paired
                    (bind (initial_fit w a) (fun _ => refine w fuel a))).
  { pair_step; [apply paired_initial_fit|apply paired_refine]. }
  rewrite bind_unfold.
  destruct fuel as [|fuel].
  { exists []. split; [cbn; rewrite app_nil_r; reflexivity|].
    split; [reflexivity|exact I]. }
  pose proof (collect_initial_cases w fuel 150 fr) as Hci. cbv zeta in Hci.
  destruct (collect_initial w (S fuel) 150 fr) as [[[]|e|] fr2];
    cbn [fst snd] in *.
  - destruct Hci as [[_ Hci]|[[E _]|[E _]]]; try discriminate.
    set (sv := save_bolfi (initial_snapshot_name 150)).
    rewrite bind_unfold.
    destruct (ext_cases w sv fr2) as [E|E]; rewrite E.
    + destruct (Hrest (push sv false fr2) I) as (t & Et & Qt & _).
      exists ([mkEvent (bolfi_fit 150) false; mkEvent sv false] ++ t).
      split; [rewrite Et; cbn [tr push]; rewrite Hci, <- !app_assoc;
              reflexivity|].
      split; [|exact I]. apply paired_app with (o' := Ok tt); [|exact Qt].
      reflexivity.
    + exists [mkEvent (bolfi_fit 150) false; mkEvent sv true].
      split; [cbn [snd tr push]; rewrite Hci, <- !app_assoc; reflexivity|].
      split; [reflexivity|exact I].
  - destruct Hci as [[E _]|[[_ Hci]|[_ Hci]]]; try discriminate;
      eexists; (split; [exact Hci|]); split; try exact I; reflexivity.
  - destruct Hci as [[E _]|[[E _]|[E _]]]; discriminate.
Qed.

End Paired.

(** X8.  In every run, whatever raises, a call of [save_bolfi] comes
    immediately after a call of [bolfi.fit] that returned, and the number
    in the file name of the snapshot is the evidence target of that
    fit. *)
Theorem snapshot_follows_its_fit (w : world) (fuel : nat)
    (t1 t2 : trace) (s : string) (b : bool) :
  tr (snd (run w fuel)) = t1 ++ mkEvent (save_bolfi s) b :: t2 ->
  exists t0 n,
    t1 = t0 ++ [mkEvent (bolfi_fit n) false] /\
    (s = snapshot_name n \/ s = initial_snapshot_name n).
Proof.
  intros Ht. unfold run in Ht.
  destruct (paired_main w fuel initial_frame I) as (t & Et & Qt & _).
  rewrite Et in Ht. cbn [tr initial_frame app] in Ht. subst t.
  apply paired_from_split in Qt. unfold save_follows_fit in Qt.
  cbn [ev_call] in Qt.
  destruct (last (map Some t1) None) as [[c r]|] eqn:El; [|discriminate].
  cbn [ev_call ev_raised] in Qt.
  destruct c; try discriminate. destruct r; [discriminate|].
  apply last_Some in El. destruct El as [t0 ->].
  exists t0, n_evidence. split; [reflexivity|].
  unfold names_target in Qt. apply orb_true_iff in Qt.
  destruct Qt as [Q|Q]; apply String.eqb_eq in Q; auto.
Qed.

(** The initial snapshot of the run in which nothing raises: the 25th
    call, right after the initial fit. *)
Lemma snapshot_follows_its_fit_witness :
  tr (snd (run calm 1))
  = firstn 24 (tr (snd (run calm 1)))
    ++ mkEvent (save_bolfi (initial_snapshot_name 150)) false
       :: skipn 25 (tr (snd (run calm 1))) /\
  exists t0 n,
    firstn 24 (tr (snd (run calm 1))) = t0 ++ [mkEvent (bolfi_fit n) false] /\
    (initial_snapshot_name 150 = snapshot_name n \/
     initial_snapshot_name 150 = initial_snapshot_name n).
Proof.
  assert (E : tr (snd (run calm 1))
              = firstn 24 (tr (snd (run calm 1)))
                ++ mkEvent (save_bolfi (initial_snapshot_name 150)) false
                   :: skipn 25 (tr (snd (run calm 1))))
    by (vm_compute; reflexivity).
  split; [exact E|].
  exact (snapshot_follows_its_fit calm 1 _ _ _ _ E).
Defined.

(** ** Search-loop controller: exceptions and retries *)

Lemma handled_quiet t : quiet t -> handled t = true.
Proof.
  induction 1 as [|e t He _ IH]; [reflexivity|].
  cbn [handled]. rewrite He, IH. reflexivity.
Qed.

Lemma handled_app t1 t2 :
  handled t1 = true -> handled t2 = true -> handled (t1 ++ t2) = true.
Proof.
  induction t1 as [|e t1 IH]; intros H1 H2; [exact H2|].
  cbn [handled app] in *. apply andb_true_iff in H1. destruct H1 as [Ha Hb].
  rewrite (IH Hb H2), andb_true_r.
  destruct (ev_raised e); [|reflexivity].
  destruct t1 as [|e1 [|e2 t1]]; try discriminate Ha. exact Ha.
Qed.

Lemma handled_caught t : caught_attempt t -> handled t = true.
Proof.
  intros (t' & c & Hq & ->). apply handled_app.
  - apply handled_quiet. exact Hq.
  - reflexivity.
Qed.

Lemma raised_count_app t1 t2 :
  raised_count (t1 ++ t2) = (raised_count t1 + raised_count t2)%nat.
Proof. unfold raised_count. rewrite filter_app, length_app. reflexivity. Qed.

Lemma raised_count_caught t : caught_attempt t -> (1 <= raised_count t)%nat.
Proof.
  intros (t' & c & _ & ->). rewrite raised_count_app.
  unfold raised_count at 2. cbn. lia.
Qed.

Section Rounds.

Variable w : world.

Lemma attempt_Ok_accepts bounds fr :
  fst (refine_attempt w bounds fr) = Ok tt ->
  iteration_accepted (snd (refine_attempt w bounds fr)) = true.
Proof.
  unfold refine_attempt. intros H.
  repeat (let E := fresh "E" in
          destruct (bind_Ok _ _ _ _ H) as (? & _ & E);
          rewrite E in H |- *; clear E).
  reflexivity.
Qed.

(** The outcomes of the [try] statement of a refinement round. *)
Lemma refine_try_cases fr :
  let r := refine_try w target_bounds fr in
  exists t, tr (snd r) = tr fr ++ t /\
    ((fst r = Ok tt /\ iteration_accepted (snd r) = true /\ quiet t) \/
     (fst r = Ok tt /\ caught_attempt t) \/
     (fst r = Raise LibraryError /\
      exists t' c, t = t' ++ [mkEvent c true] /\
                   (is_print c = true \/ c = batches_reset))).
Proof.
  cbv zeta. unfold refine_try, try_except.
  destruct (halting_refine_attempt w fr) as (t & Et & O).
  pose proof (attempt_Ok_accepts target_bounds fr) as Hacc.
  destruct (refine_attempt w target_bounds fr) as [[[]|e|] fr'];
    cbn [fst snd] in *.
  - exists t. split; [exact Et|]. left.
    destruct O as [[_ Hq]|[He _]]; [|discriminate]. auto.
  - destruct O as [[[a Ha] _]|[_ (t' & c & -> & Hq)]]; [discriminate|].
    unfold refine_handler. rewrite bind_unfold.
    set (pr := print ["Exception!"]).
    destruct (ext_cases w pr fr') as [E|E]; rewrite E.
    + set (fr1 := push pr false fr').
      destruct (ext_cases w batches_reset fr1) as [E1|E1]; rewrite E1.
      * exists ((t' ++ [mkEvent c true]) ++ map returned handler_calls).
        split; [cbn [snd tr push fr1]; rewrite Et, <- !app_assoc;
                reflexivity|].
        right. left. split; [reflexivity|]. exists t', c.
        split; [exact Hq|]. rewrite <- app_assoc. reflexivity.
      * exists ((t' ++ [mkEvent c true; returned pr])
                ++ [mkEvent batches_reset true]).
        split; [cbn [snd tr push fr1]; rewrite Et, <- !app_assoc;
                reflexivity|].
        right. right. split; [reflexivity|]. eauto.
    + exists ((t' ++ [mkEvent c true]) ++ [mkEvent pr true]).
      split; [cbn [snd tr push]; rewrite Et, <- !app_assoc; reflexivity|].
      right. right. split; [reflexivity|]. eexists _, pr. split; eauto.
  - destruct O as [[[a Ha] _]|[He _]]; discriminate.
Qed.

(** From the loop of attempts to the whole refinement loop. *)
Lemma post_refine (J : Z -> Prop) (Q : outcome unit -> trace -> Prop)
    fuel bounds :
  Q (Ok tt) [] ->
  (forall o t1 t2, Q (Ok tt) t1 -> Q o t2 -> Q o (t1 ++ t2)) ->
  Forall J (range 20) ->
  (forall c, is_print c = true -> Q (Ok tt) [mkEvent c false]) ->
  (forall c, is_print c = true -> Q (Raise LibraryError) [mkEvent c true]) ->
  post J Q (while_rounds fuel (refine_try w bounds)) ->
  post J Q (refine w fuel bounds).
Proof.
  intros Qn Qa HJ Q0 Q1 Hw. unfold refine, refine_round.
  apply post_for_i; auto.
  apply post_bind; [exact Qa| |intros _].
  { apply post_set_iteration_accepted. exact Qn. }
  apply post_get_i. intros i _.
  apply post_bind; [exact Qa| |intros _].
  { apply post_ext; [apply Q0|apply Q1]; reflexivity. }
  apply post_while_not_accepted; assumption.
Qed.

Lemma all_handled_app o t1 t2 :
  all_handled (Ok tt) t1 -> all_handled o t2 -> all_handled o (t1 ++ t2).
Proof. intros H1 H2 Ho. apply handled_app; auto. Qed.

Lemma all_handled_refine fuel :
  post any_i all_handled (refine w fuel target_bounds).
Proof.
  apply post_refine.
  - intros _. reflexivity.
  - apply all_handled_app.
  - apply any_i_all.
  - intros c _ _. reflexivity.
  - intros c _ H. discriminate H.
  - apply post_while_rounds.
    + apply all_handled_app.
    + intros H. discriminate H.
    + intros fr _.
      destruct (refine_try_cases fr) as (t & Et & C). cbv zeta in C.
      exists t. split; [exact Et|]. split; [|exact I].
      destruct C as [(E & _ & Hq)|[(E & Hc)|(E & _)]]; rewrite E; intros H.
      * apply handled_quiet. exact Hq.
      * apply handled_caught. exact Hc.
      * discriminate H.
Qed.

Lemma spun_app n o t1 t2 :
  spun n (Ok tt) t1 -> spun n o t2 -> spun n o (t1 ++ t2).
Proof.
  intros _ H2 Ho. rewrite raised_count_app. specialize (H2 Ho). lia.
Qed.

Lemma spun_while_rounds fuel :
  post any_i (spun fuel) (while_rounds fuel (refine_try w target_bounds)).
Proof.
  induction fuel as [|fuel IH]; intros fr _.
  - exists []. cbn. rewrite app_nil_r. split; [reflexivity|].
    split; [|exact I]. intros _. cbn. lia.
  - cbn [while_rounds].
    destruct (refine_try_cases fr) as (t & Et & C). cbv zeta in C.
    destruct (refine_try w target_bounds fr) as [[[]|e|] fr'];
      cbn [fst snd] in *.
    + destruct (iteration_accepted fr') eqn:Ha.
      * exists t. split; [exact Et|]. split; [|exact I]. discriminate.
      * destruct C as [(_ & Hacc & _)|[(_ & Hc)|(E & _)]];
          [congruence| |discriminate].
        destruct (IH fr' I) as (t2 & E2 & Q2 & _).
        exists (t ++ t2). split; [rewrite E2, Et, app_assoc; reflexivity|].
        split; [|exact I]. intros Ho. specialize (Q2 Ho).
        rewrite raised_count_app. apply raised_count_caught in Hc. lia.
    + exists t. split; [exact Et|]. split; [|exact I]. discriminate.
    + destruct C as [(E & _)|[(E & _)|(E & _)]]; discriminate.
Qed.

Lemma spun_refine fuel : post any_i (spun fuel) (refine w fuel target_bounds).
Proof.
  apply post_refine.
  - discriminate.
  - apply spun_app.
  - apply any_i_all.
  - discriminate.
  - discriminate.
  - apply spun_while_rounds.
Qed.

Lemma died_in_handler_app o t1 t2 :
  died_in_handler (Ok tt) t1 -> died_in_handler o t2 ->
  died_in_handler o (t1 ++ t2).
Proof.
  intros _ H2 e He. destruct (H2 e He) as (E & t' & c & -> & Hc).
  split; [exact E|]. exists (t1 ++ t'), c. rewrite app_assoc. auto.
Qed.

Lemma died_in_handler_try bounds :
  post any_i died_in_handler (refine_try w bounds).
Proof.
  intros fr _. unfold refine_try, try_except.
  destruct (emits_refine_attempt w bounds fr) as (t & Et & _).
  destruct (refine_attempt w bounds fr) as [[[]|e|] fr'];
    cbn [fst snd] in *.
  - exists t. split; [exact Et|]. split; [|exact I]. discriminate.
  - unfold refine_handler. rewrite bind_unfold.
    set (pr := print ["Exception!"]).
    destruct (ext_cases w pr fr') as [E|E]; rewrite E.
    + set (fr1 := push pr false fr').
      destruct (ext_cases w batches_reset fr1) as [E1|E1]; rewrite E1.
      * eexists. split; [cbn [snd tr push fr1]; rewrite Et, <- !app_assoc;
                         reflexivity|].
        split; [|exact I]. discriminate.
      * exists ((t ++ [returned pr]) ++ [mkEvent batches_reset true]).
        split; [cbn [snd tr push fr1]; rewrite Et, <- !app_assoc;
                reflexivity|].
        split; [|exact I]. intros e0 [= <-]. split; [reflexivity|]. eauto.
    + exists (t ++ [mkEvent pr true]).
      split; [cbn [snd tr push]; rewrite Et, <- !app_assoc; reflexivity|].
      split; [|exact I]. intros e0 [= <-]. split; [reflexivity|].
      exists t, pr. auto.
  - exists t. split; [exact Et|]. split; [|exact I]. discriminate.
Qed.

Lemma died_in_handler_refine fuel bounds :
  post any_i died_in_handler (refine w fuel bounds).
Proof.
  apply post_refine.
  - discriminate.
  - apply died_in_handler_app.
  - apply any_i_all.
  - discriminate.
  - intros c Hc e [= <-]. split; [reflexivity|]. exists [], c. auto.
  - apply post_while_rounds.
    + apply died_in_handler_app.
    + discriminate.
    + apply died_in_handler_try.
Qed.

End Rounds.

(** X2.  In a run that ends normally every exception was dealt with by
    the handler of the refinement loop: each call that raised is followed
    at once by [print('Exception!')] and [bolfi.batches.reset()], and
    both returned. *)
Theorem completed_run_exceptions_handled (w : world) (fuel : nat) :
  fst (run w fuel) = Ok tt ->
  handled (tr (snd (run w fuel))) = true.
Proof.
  intros Hok.
  destruct (main_cases w fuel) as [(fr & Et & E)|[[e He]|[_ He]]];
    [|rewrite He in Hok; discriminate..].
  rewrite E in Hok |- *.
  destruct (all_handled_refine w fuel fr I) as (t & Ht & Q & _).
  rewrite Ht, Et. apply handled_app.
  - apply handled_quiet. apply Forall_forall.
    intros e He. apply in_map_iff in He. destruct He as (c & <- & _).
    reflexivity.
  - apply Q. rewrite Hok. reflexivity.
Qed.

(** A run in which the fit of round [i = 1] raises once. *)
Lemma completed_run_exceptions_handled_witness :
  fst (run (raise_on is_fit 2) 2) = Ok tt /\
  raised_count (tr (snd (run (raise_on is_fit 2) 2))) = 1%nat /\
  handled (tr (snd (run (raise_on is_fit 2) 2))) = true.
Proof.
  split; [vm_compute; reflexivity|]. split; [vm_compute; reflexivity|].
  apply (completed_run_exceptions_handled (raise_on is_fit 2) 2).
  vm_compute. reflexivity.
Defined.

(** X3.  The loops of the script go round again only after an
    exception: a run that is still going when one of its [while] loops
    has made [fuel] rounds has seen at least [fuel] calls raise.  In a
    world in which fewer calls raise, the script comes to an end. *)
Theorem out_of_fuel_needs_failures (w : world) (fuel : nat) :
  fst (run w fuel) = OutOfFuel ->
  (fuel <= raised_count (tr (snd (run w fuel))))%nat.
Proof.
  intros Hoof.
  destruct (main_cases w fuel) as [(fr & Et & E)|[[e He]|[-> _]]].
  - rewrite E in Hoof |- *.
    destruct (spun_refine w fuel fr I) as (t & Ht & Q & _).
    rewrite Ht, raised_count_app. rewrite Hoof in Q.
    specialize (Q eq_refl). lia.
  - rewrite He in Hoof. discriminate.
  - lia.
Qed.

(** The run in which every [bolfi.fit] call after the first raises,
    with a budget of three rounds for every loop. *)
Lemma out_of_fuel_needs_failures_witness :
  let w := fun (t : trace) (c : call) =>
             is_fit c && negb (is_empty (filter is_fit (calls t))) in
  fst (run w 3) = OutOfFuel /\
  (3 <= raised_count (tr (snd (run w 3))))%nat.
Proof.
  cbv zeta. split; [vm_compute; reflexivity|].
  apply (out_of_fuel_needs_failures
           (fun t c => is_fit c && negb (is_empty (filter is_fit (calls t))))
           3).
  vm_compute. reflexivity.
Defined.

(** X4.  Inside the refinement loop (lines 218-260) no exception of
    [bolfi.fit], of [save_bolfi] or of the re-tuning ends the script, for
    any bounds: when the loop ends with an exception, the last call made
    is a [print] (line 220 or 259) or [bolfi.batches.reset()] (line 260),
    that call raised, and the exception is the one of that call. *)
Theorem refine_dies_only_in_handler (w : world) (fuel : nat)
    (bounds : list (Q * Q)) (fr : frame) (e : exn) :
  fst (refine w fuel bounds fr) = Raise e ->
  e = LibraryError /\
  exists t c,
    tr (snd (refine w fuel bounds fr)) = tr fr ++ t ++ [mkEvent c true] /\
    (is_print c = true \/ c = batches_reset).
Proof.
  intros He.
  destruct (died_in_handler_refine w fuel bounds fr I) as (t & Ht & Q & _).
  rewrite He in Q. destruct (Q e eq_refl) as (E & t' & c & -> & Hc).
  split; [exact E|]. exists t', c. auto.
Qed.

(** The refinement loop when every fit and every reset of the batches
    raises: the first round ends the loop in its handler. *)
Lemma refine_dies_only_in_handler_witness :
  let w := fun (_ : trace) (c : call) =>
             is_fit c || match c with batches_reset => true | _ => false end in
  fst (refine w 1 target_bounds initial_frame) = Raise LibraryError /\
  exists t c,
    tr (snd (refine w 1 target_bounds initial_frame))
    = tr initial_frame ++ t ++ [mkEvent c true] /\
    (is_print c = true \/ c = batches_reset).
Proof.
  cbv zeta. split; [vm_compute; reflexivity|].
  refine (proj2 (refine_dies_only_in_handler
            (fun _ c => is_fit c ||
                        match c with batches_reset => true | _ => false end)
            1 target_bounds initial_frame LibraryError _)).
  vm_compute. reflexivity.
Defined.

Section RoundShapes.

Variable w : world.

Lemma failed_attempt bounds fr :
  (forall t, w t (bolfi_fit (150 + 50 * var_i fr)) = true) ->
  (forall t, w t (print ["Exception!"]) = false) ->
  (forall t, w t batches_reset = false) ->
  refine_try w bounds fr
  = (Ok tt, mkFrame (tr fr ++ failed_fit (150 + 50 * var_i fr))
                    (var_i fr) (iteration_accepted fr)).
Proof.
  intros Hfit Hpr Hrs.
  unfold refine_try, refine_attempt. rewrite try_except_bind.
  cbv [get_i]. rewrite try_except_bind.
  unfold ext at 1. rewrite Hfit.
  unfold refine_handler, bind, ext. cbn [tr var_i iteration_accepted].
  rewrite Hpr. cbn [tr var_i iteration_accepted]. rewrite Hrs.
  rewrite <- !app_assoc. reflexivity.
Qed.

Lemma failed_rounds bounds fuel : forall fr,
  (forall t, w t (bolfi_fit (150 + 50 * var_i fr)) = true) ->
  (forall t, w t (print ["Exception!"]) = false) ->
  (forall t, w t batches_reset = false) ->
  iteration_accepted fr = false ->
  while_rounds fuel (refine_try w bounds) fr
  = (OutOfFuel,
     mkFrame (tr fr ++ List.concat
                         (repeat (failed_fit (150 + 50 * var_i fr)) fuel))
             (var_i fr) false).
Proof.
  induction fuel as [|fuel IH]; intros fr Hfit Hpr Hrs Hacc.
  - cbn. rewrite app_nil_r. destruct fr; cbn in *. subst. reflexivity.
  - cbn [while_rounds]. rewrite failed_attempt by assumption.
    cbn [iteration_accepted]. rewrite Hacc.
    rewrite IH
      by (cbn [var_i iteration_accepted]; first [assumption|reflexivity]).
    cbn [tr var_i repeat List.concat].
    rewrite <- app_assoc. reflexivity.
Qed.

End RoundShapes.

(** X5.  The retry of a refinement round has no bound and no change
    of plan: in a round whose [bolfi.fit] raises every time, while the
    prints and the reset of the batches return, every attempt ends in the
    handler, the next attempt asks for the same target, no snapshot is
    written, and after any number [fuel] of attempts the round is still
    going. *)
Theorem refinement_retries_without_bound (w : world) (fuel : nat)
    (bounds : list (Q * Q)) (fr : frame) :
  (forall t, w t (print ["i: "; str (var_i fr)]) = false) ->
  (forall t, w t (bolfi_fit (150 + 50 * var_i fr)) = true) ->
  (forall t, w t (print ["Exception!"]) = false) ->
  (forall t, w t batches_reset = false) ->
  let r := refine_round w fuel bounds fr in
  fst r = OutOfFuel /\
  tr (snd r) = tr fr ++ returned (print ["i: "; str (var_i fr)])
                        :: List.concat
                             (repeat (failed_fit (150 + 50 * var_i fr)) fuel) /\
  fit_targets (tr (snd r))
  = fit_targets (tr fr) ++ repeat (150 + 50 * var_i fr) fuel /\
  snapshots (tr (snd r)) = snapshots (tr fr).
Proof.
  intros Hi Hfit Hpr Hrs. cbv zeta.
  assert (E : refine_round w fuel bounds fr
              = (OutOfFuel,
                 mkFrame (tr fr ++ returned (print ["i: "; str (var_i fr)])
                            :: List.concat (repeat
                                 (failed_fit (150 + 50 * var_i fr)) fuel))
                         (var_i fr) false)).
  { unfold refine_round, bind, set_iteration_accepted, get_i,
      while_not_accepted.
    cbn [var_i tr iteration_accepted]. unfold ext at 1.
    cbn [var_i tr iteration_accepted]. rewrite Hi.
    cbn [var_i tr iteration_accepted].
    rewrite failed_rounds
      by (cbn [var_i iteration_accepted]; first [assumption|reflexivity]).
    cbn [tr var_i]. rewrite <- app_assoc. reflexivity. }
  rewrite E. cbn [fst snd tr]. split; [reflexivity|]. split; [reflexivity|].
  split.
  - assert (Hf : forall l, fit_targets
                   (List.concat (repeat (failed_fit (150 + 50 * var_i fr)) l))
                 = repeat (150 + 50 * var_i fr) l).
    { induction l as [|l IH]; [reflexivity|].
      cbn [repeat List.concat]. unfold fit_targets in *.
      rewrite flat_map_app, IH. reflexivity. }
    change (returned ?c :: ?l) with ([returned c] ++ l).
    unfold fit_targets in *. rewrite !flat_map_app, Hf. reflexivity.
  - rewrite snapshots_app.
    assert (Hs : forall l, snapshots
                   (List.concat (repeat (failed_fit (150 + 50 * var_i fr)) l))
                 = []).
    { induction l as [|l IH]; [reflexivity|].
      cbn [repeat List.concat]. rewrite snapshots_app, IH. reflexivity. }
    change (returned ?c :: ?l) with ([returned c] ++ l).
    rewrite snapshots_app, Hs. cbn. rewrite app_nil_r. reflexivity.
Qed.

(** Round [i = 0] when every fit raises and nothing else does, with a
    budget of three attempts. *)
Lemma refinement_retries_without_bound_witness :
  fst (refine_round (fun _ c => is_fit c) 3 target_bounds initial_frame)
  = OutOfFuel /\
  fit_targets (tr (snd (refine_round (fun _ c => is_fit c) 3 target_bounds
                          initial_frame)))
  = [150; 150; 150].
Proof.
  pose proof (refinement_retries_without_bound (fun _ c => is_fit c) 3
                target_bounds initial_frame
                (fun _ => eq_refl) (fun _ => eq_refl)
                (fun _ => eq_refl) (fun _ => eq_refl)) as H.
  cbv zeta in H. destruct H as (H1 & _ & H2 & _).
  split; [exact H1|exact H2].
Defined.

(** X7.  A refinement attempt with even [i] whose calls all return
    makes exactly the calls [even_round_calls i]: the fit, the snapshot,
    the noise setting, [constrain_positive], the randomization, the seven
    seeding assignments and the optimization; it sets no bounded
    interval.  Dimension [d] is seeded with a quotient: the width of the
    bounds of the [d]-th parameter name in alphabetical order, divided
    by [bolfi.state['n_evidence']] as BOLFI holds it at that moment; the
    widths are 19 for [Tf1] and [Tf2], 9.999 for [alpha] and [beta], 7
    for [log_walltime], 99.999 for [nAr] and 0.043 for [tmin].
    Afterwards the loop variable [i] is 6, whatever the round was, and
    the round is accepted. *)
Theorem even_round_seeds (w : world) (fr : frame) :
  Z.even (var_i fr) = true ->
  fst (refine_attempt w target_bounds fr) = Ok tt ->
  let r := refine_attempt w target_bounds fr in
  tr (snd r) = tr fr ++ map returned (even_round_calls (var_i fr)) /\
  var_i (snd r) = 6 /\
  iteration_accepted (snd r) = true /\
  lengthscale_bounds (even_round_calls (var_i fr)) = [] /\
  filter is_seeding (even_round_calls (var_i fr)) = seed_calls /\
  Forall2 seeds_dimension seed_calls
    [ (0, 19%Q); (1, 19%Q); (2, 9.999%Q); (3, 9.999%Q); (4, 7%Q);
      (5, 99.999%Q); (6, 0.043%Q) ] /\
  map (fun n => index_of n (parameter_names model_graph))
      ["Tf1"; "Tf2"; "alpha"; "beta"; "log_walltime"; "nAr"; "tmin"]
  = map Some (range 7).
Proof.
  intros Heven Hok. cbv zeta.
  assert (Hmod : (var_i fr mod 2 =? 0) = true).
  { rewrite Zmod_even, Heven. reflexivity. }
  split; [|split; [|split]].
  - unfold refine_attempt, retune in *.
    cbv [bind get_i set_iteration_accepted] in Hok |- *.
    do 2 ext_returns Hok. cbn [var_i push] in Hok |- *.
    do 3 ext_returns Hok. cbn [var_i push] in Hok |- *.
    rewrite Hmod in Hok |- *.
    do 2 ext_returns Hok.
    rewrite seed_lengthscales_unrolled in Hok |- *.
    match type of Hok with
    | context [seeds w ?f0] =>
        destruct (seeds w f0) as [[[]|e|] fr'] eqn:Es; try discriminate Hok;
        pose proof (seeds_trace w f0) as Hs; rewrite Es in Hs;
        destruct (Hs eq_refl) as [Et _]; clear Hs
    end.
    ext_returns Hok.
    cbn [snd tr push] in Et |- *. rewrite Et.
    unfold even_round_calls. rewrite !map_app, <- !app_assoc. reflexivity.
  - unfold refine_attempt, retune in *.
    cbv [bind get_i set_iteration_accepted] in Hok |- *.
    do 2 ext_returns Hok. cbn [var_i push] in Hok |- *.
    do 3 ext_returns Hok. cbn [var_i push] in Hok |- *.
    rewrite Hmod in Hok |- *.
    do 2 ext_returns Hok.
    rewrite seed_lengthscales_unrolled in Hok |- *.
    match type of Hok with
    | context [seeds w ?f0] =>
        destruct (seeds w f0) as [[[]|e|] fr'] eqn:Es; try discriminate Hok;
        pose proof (seeds_trace w f0) as Hs; rewrite Es in Hs;
        destruct (Hs eq_refl) as [_ Ei]; clear Hs
    end.
    ext_returns Hok. cbn [snd var_i push] in Ei |- *. exact Ei.
  - apply attempt_Ok_accepts. exact Hok.
  - split; [reflexivity|]. split; [reflexivity|]. split; [|reflexivity].
    unfold seed_calls. cbn [range seq map combine target_bounds].
    repeat (constructor; [eexists; split; [reflexivity|reflexivity]|]).
    constructor.
Qed.

(** The attempt of round [i = 0] when nothing raises. *)
Lemma even_round_seeds_witness :
  Z.even (var_i initial_frame) = true /\
  fst (refine_attempt calm target_bounds initial_frame) = Ok tt /\
  tr (snd (refine_attempt calm target_bounds initial_frame))
  = map returned (even_round_calls 0) /\
  var_i (snd (refine_attempt calm target_bounds initial_frame)) = 6.
Proof.
  split; [reflexivity|]. split; [reflexivity|].
  pose proof (even_round_seeds calm initial_frame eq_refl eq_refl) as H.
  cbv zeta in H. destruct H as (H1 & H2 & _).
  split; [exact H1|exact H2].
Defined.

(** ** Search-loop controller: the price of an exception *)

Lemma fit_targets_app t1 t2 :
  fit_targets (t1 ++ t2) = fit_targets t1 ++ fit_targets t2.
Proof. unfold fit_targets. apply flat_map_app. Qed.

Lemma fit_count_app t1 t2 :
  fit_count (t1 ++ t2) = (fit_count t1 + fit_count t2)%nat.
Proof. unfold fit_count. rewrite fit_targets_app, length_app. reflexivity. Qed.

Lemma no_fit_nil o : no_fit o [].
Proof. reflexivity. Qed.

Lemma no_fit_app o o' t1 t2 :
  no_fit o' t1 -> no_fit o t2 -> no_fit o (t1 ++ t2).
Proof.
  unfold no_fit. intros H1 H2. rewrite fit_targets_app, H1, H2. reflexivity.
Qed.

Lemma no_fit_one o c b : is_fit c = false -> no_fit o [mkEvent c b].
Proof. intros H. destruct c; try reflexivity. discriminate H. Qed.

Lemma raised_count_quiet t : quiet t -> raised_count t = 0%nat.
Proof.
  unfold raised_count. induction 1 as [|e t He _ IH]; [reflexivity|].
  cbn [filter]. rewrite He. exact IH.
Qed.

Ltac no_fit_step := post_step no_fit_nil no_fit_app no_fit_one.

Section Flag.

Variable w : world.

Lemma keeps_flag_same {A} (m : M A) :
  (forall fr, iteration_accepted (snd (m fr)) = iteration_accepted fr) ->
  keeps_flag m.
Proof. intros H. exact H. Qed.

Lemma keeps_flag_ext c : keeps_flag (ext w c).
Proof. intros fr. reflexivity. Qed.

Lemma keeps_flag_bind {A B} (c : M A) (k : A -> M B) :
  keeps_flag c -> (forall a, keeps_flag (k a)) -> keeps_flag (bind c k).
Proof.
  intros Hc Hk fr. rewrite bind_unfold. specialize (Hc fr).
  destruct (c fr) as [[a|e|] fr']; cbn [snd] in *; try exact Hc.
  rewrite Hk. exact Hc.
Qed.

Lemma keeps_flag_for_i xs (body : M unit) :
  keeps_flag body -> keeps_flag (for_i xs body).
Proof.
  intros Hb. induction xs as [|x xs IH]; cbn [for_i].
  - intros fr. reflexivity.
  - apply keeps_flag_bind; [intros fr; reflexivity|intros _].
    apply keeps_flag_bind; [exact Hb|intros _; exact IH].
Qed.

End Flag.

Ltac flag_step :=
  cbv beta;
  lazymatch goal with
  | |- keeps_flag (bind _ _) => apply keeps_flag_bind; [|intros ?]
  | |- keeps_flag (ext _ _) => apply keeps_flag_ext
  | |- keeps_flag (for_i _ _) => apply keeps_flag_for_i
  | |- keeps_flag (if ?b then _ else _) => destruct b
  | |- keeps_flag _ => apply keeps_flag_same; intros ?; reflexivity
  end.

Section Accounting.

Variable w : world.

Lemma keeps_flag_retune bounds : keeps_flag (retune w bounds).
Proof. unfold retune, seed_lengthscales. repeat flag_step. Qed.

(** An attempt that does not return leaves the acceptance flag as it
    was. *)
Lemma attempt_flag bounds fr :
  fst (refine_attempt w bounds fr) = Ok tt \/
  iteration_accepted (snd (refine_attempt w bounds fr))
  = iteration_accepted fr.
Proof.
  unfold refine_attempt. rewrite bind_unfold. cbv [get_i].
  rewrite bind_unfold.
  set (ft := bolfi_fit (150 + 50 * var_i fr)).
  destruct (ext_cases w ft fr) as [E|E]; rewrite E; [|right; reflexivity].
  rewrite bind_unfold. cbv beta iota. rewrite bind_unfold.
  set (fr1 := push ft false fr).
  set (sv := save_bolfi (snapshot_name (150 + 50 * var_i fr1))).
  destruct (ext_cases w sv fr1) as [E1|E1]; rewrite E1; [|right; reflexivity].
  rewrite bind_unfold.
  pose proof (keeps_flag_retune bounds (push sv false fr1)) as K.
  destruct (retune w bounds (push sv false fr1)) as [[[]|e|] fr3];
    cbn [snd] in *; [left; reflexivity|right; exact K..].
Qed.

Lemma no_fit_seed_lengthscales bounds :
  post any_i no_fit (seed_lengthscales w bounds).
Proof. unfold seed_lengthscales. repeat no_fit_step. Qed.

Lemma no_fit_refine_handler : post any_i no_fit (refine_handler w).
Proof. unfold refine_handler. repeat no_fit_step. Qed.

Lemma no_fit_after_fit bounds :
  post any_i no_fit
    (try_except
       (bind get_i (fun i =>
          bind (ext w (save_bolfi (snapshot_name (150 + 50 * i))))
               (fun _ => bind (retune w bounds)
                              (fun _ => set_iteration_accepted true))))
       (refine_handler w)).
Proof.
  unfold retune. repeat no_fit_step.
  - apply no_fit_seed_lengthscales.
  - apply no_fit_refine_handler.
Qed.

(** Every attempt of a round calls [bolfi.fit] once. *)
Lemma refine_try_one_fit bounds fr :
  exists t, tr (snd (refine_try w bounds fr)) = tr fr ++ t /\
            fit_count t = 1%nat.
Proof.
  unfold refine_try, refine_attempt.
  rewrite try_except_bind. cbv [get_i]. rewrite try_except_bind.
  set (ft := bolfi_fit (150 + 50 * var_i fr)).
  destruct (ext_cases w ft fr) as [E|E]; rewrite E.
  - destruct (no_fit_after_fit bounds (push ft false fr) I)
      as (t & Et & Qt & _).
    exists ([mkEvent ft false] ++ t). split.
    + etransitivity; [exact Et|]. cbn [tr push]. rewrite <- app_assoc.
      reflexivity.
    + rewrite fit_count_app. unfold fit_count at 2. rewrite Qt. reflexivity.
  - destruct (no_fit_refine_handler (push ft true fr) I) as (t & Et & Qt & _).
    exists ([mkEvent ft true] ++ t). split.
    + rewrite Et. cbn [tr push]. rewrite <- app_assoc. reflexivity.
    + rewrite fit_count_app. unfold fit_count at 2. rewrite Qt. reflexivity.
Qed.

(** The [try] statement of a round returns with the round accepted and
    no call that raised, or with the acceptance flag as it was and one
    call that raised. *)
Lemma refine_try_Ok fr :
  fst (refine_try w target_bounds fr) = Ok tt ->
  exists t,
    tr (snd (refine_try w target_bounds fr)) = tr fr ++ t /\
    fit_count t = 1%nat /\
    ((iteration_accepted (snd (refine_try w target_bounds fr)) = true /\
      raised_count t = 0%nat) \/
     (iteration_accepted (snd (refine_try w target_bounds fr))
      = iteration_accepted fr /\
      raised_count t = 1%nat)).
Proof.
  intros Hok.
  destruct (refine_try_one_fit target_bounds fr) as (t & Et & F).
  exists t. split; [exact Et|]. split; [exact F|].
  revert Hok Et. unfold refine_try, try_except.
  destruct (halting_refine_attempt w fr) as (t0 & Et0 & O).
  pose proof (attempt_Ok_accepts w target_bounds fr) as Hacc.
  pose proof (attempt_flag target_bounds fr) as Hflag.
  destruct (refine_attempt w target_bounds fr) as [[[]|e|] fr'];
    cbn [fst snd] in *.
  - intros _ Et. left. split; [auto|].
    rewrite Et0 in Et. apply app_inv_head in Et. subst t0.
    destruct O as [[_ Hq]|[He _]]; [|discriminate].
    apply raised_count_quiet. exact Hq.
  - destruct Hflag as [Hf|Hf]; [discriminate|].
    destruct O as [[[a Ha] _]|[_ (t' & c & -> & Hq)]]; [discriminate|].
    destruct (keeps_refine_handler w fr') as [_ K].
    unfold refine_handler in *. rewrite bind_unfold in *.
    set (pr := print ["Exception!"]) in *.
    destruct (ext_cases w pr fr') as [E|E]; rewrite E in *;
      [|discriminate].
    set (fr1 := push pr false fr') in *.
    destruct (ext_cases w batches_reset fr1) as [E1|E1]; rewrite E1 in *;
      [|discriminate].
    intros _ Et. right. split; [cbn [snd] in K |- *; congruence|].
    cbn [snd tr push fr1] in Et. rewrite Et0, <- !app_assoc in Et.
    apply app_inv_head in Et. subst t.
    rewrite raised_count_app, (raised_count_quiet _ Hq). reflexivity.
  - discriminate.
Qed.

(** The loop of a round that ends normally has called [bolfi.fit] once
    more than calls raised. *)
Lemma while_rounds_fits fuel : forall fr,
  iteration_accepted fr = false ->
  fst (while_rounds fuel (refine_try w target_bounds) fr) = Ok tt ->
  exists t,
    tr (snd (while_rounds fuel (refine_try w target_bounds) fr)) = tr fr ++ t /\
    fit_count t = S (raised_count t).
Proof.
  induction fuel as [|fuel IH]; intros fr Hf Hok; [discriminate Hok|].
  cbn [while_rounds] in Hok |- *.
  pose proof (refine_try_Ok fr) as C.
  destruct (refine_try w target_bounds fr) as [[[]|e|] fr'];
    cbn [fst snd] in *; try discriminate Hok.
  destruct (C eq_refl) as (t & Et & F & D). clear C.
  destruct (iteration_accepted fr') eqn:Ha.
  - exists t. split; [exact Et|].
    destruct D as [[_ R]|[Hsame _]]; [|congruence].
    rewrite F, R. reflexivity.
  - destruct D as [[Htrue _]|[_ R]]; [discriminate|].
    destruct (IH fr' Ha Hok) as (t2 & Et2 & F2).
    exists (t ++ t2). split; [rewrite Et2, Et, app_assoc; reflexivity|].
    rewrite fit_count_app, raised_count_app, F, F2, R. lia.
Qed.

Lemma refine_round_fits fuel fr :
  fst (refine_round w fuel target_bounds fr) = Ok tt ->
  exists t,
    tr (snd (refine_round w fuel target_bounds fr)) = tr fr ++ t /\
    fit_count t = S (raised_count t).
Proof.
  unfold refine_round. cbv [bind set_iteration_accepted get_i].
  cbv beta iota.
  match goal with
  | |- context [ext w ?c ?f] =>
      set (pr := c); set (fr0 := f);
      destruct (ext_cases w pr fr0) as [E|E]; rewrite E
  end; [|discriminate].
  unfold while_not_accepted. cbn [iteration_accepted push fr0].
  intros Hok.
  destruct (while_rounds_fits fuel (push pr false fr0) eq_refl Hok)
    as (t & Et & F).
  exists ([mkEvent pr false] ++ t). split.
  - rewrite Et. cbn [tr push fr0]. rewrite <- app_assoc. reflexivity.
  - rewrite fit_count_app, raised_count_app, F. reflexivity.
Qed.

Lemma refine_fits fuel xs : forall fr,
  fst (for_i xs (refine_round w fuel target_bounds) fr) = Ok tt ->
  exists t,
    tr (snd (for_i xs (refine_round w fuel target_bounds) fr)) = tr fr ++ t /\
    fit_count t = (List.length xs + raised_count t)%nat.
Proof.
  induction xs as [|x xs IH]; intros fr Hok.
  - exists []. cbn. rewrite app_nil_r. auto.
  - cbn [for_i] in Hok |- *. rewrite bind_unfold in Hok |- *.
    cbv [set_i] in Hok |- *. cbv beta iota in Hok |- *.
    rewrite bind_unfold in Hok |- *.
    set (fr0 := mkFrame (tr fr) x (iteration_accepted fr)) in *.
    pose proof (refine_round_fits fuel fr0) as R.
    destruct (refine_round w fuel target_bounds fr0) as [[[]|e|] fr'];
      cbn [fst snd] in *; try discriminate Hok.
    destruct (R eq_refl) as (t1 & E1 & F1).
    destruct (IH fr' Hok) as (t2 & E2 & F2).
    exists (t1 ++ t2). split.
    + rewrite E2, E1, app_assoc. reflexivity.
    + rewrite fit_count_app, raised_count_app, F1, F2. cbn [List.length]. lia.
Qed.

End Accounting.

(** X13.  Every exception costs one more call of [bolfi.fit]: a run
    that ends normally has called [bolfi.fit] 21 times (the initial phase
    and the 20 rounds) plus once for every call that raised. *)
Theorem one_more_fit_per_exception (w : world) (fuel : nat) :
  fst (run w fuel) = Ok tt ->
  fit_count (tr (snd (run w fuel)))
  = (21 + raised_count (tr (snd (run w fuel))))%nat.
Proof.
  intros Hok.
  destruct (main_cases w fuel) as [(fr & Et & E)|[[e He]|[_ He]]];
    [|rewrite He in Hok; discriminate..].
  rewrite E in Hok |- *. unfold refine in *.
  destruct (refine_fits w fuel (range 20) fr Hok) as (t & Ht & F).
  rewrite Ht, Et, fit_count_app, raised_count_app, F.
  rewrite (raised_count_quiet (map returned prelude_calls)).
  - reflexivity.
  - apply Forall_forall. intros e He. apply in_map_iff in He.
    destruct He as (c & <- & _). reflexivity.
Qed.

(** A run in which the re-tuning of round [i = 0] and the fit of a later
    round raise once each. *)
Lemma one_more_fit_per_exception_witness :
  let w := fun (t : trace) (c : call) =>
             raise_on is_optimize 1 t c || raise_on is_fit 5 t c in
  fst (run w 2) = Ok tt /\
  raised_count (tr (snd (run w 2))) = 2%nat /\
  fit_count (tr (snd (run w 2))) = 23%nat.
Proof.
  cbv zeta. split; [vm_compute; reflexivity|].
  split; [vm_compute; reflexivity|].
  rewrite (one_more_fit_per_exception
             (fun t c => raise_on is_optimize 1 t c || raise_on is_fit 5 t c)
             2) by (vm_compute; reflexivity).
  vm_compute. reflexivity.
Defined.

(** ** Simulator adapter: arrays that are not a parameter vector *)

(** Indexing at 0 reads the first element. *)
Lemma getitem_0 {A} (l : list A) :
  getitem l 0 = match hd_error l with
                | Some a => Ok a
                | None => Raise IndexError
                end.
Proof. destruct l; reflexivity. Qed.

Section SimulatorAdapterEdges.

Variable float : Type.
Variable numpy_exp : float -> float.
Variable float_str : float -> string.
Variable lit_1e10 : float.
Variable RandomState : Type.
Variable disk : Type.
Variable run_CQ_fluid_simulation_vTf :
  disk -> sim_kwargs float -> outcome (h5out float) * disk.

(** X9.  [sim_fn] on arrays that are not a parameter vector: when one
    of the seven arrays is empty, indexing it raises [IndexError]; when
    none is empty and [Tf1] does not hold exactly one element,
    [float(Tf1)] raises [TypeError].  In both cases the simulation is not
    run and the outside state is as it was. *)
Theorem sim_fn_argument_errors
    (d : disk) (Tf1 Tf2 tmin nAr log_walltime alpha beta : list float)
    (batch_size : Z) (random_state : option RandomState) :
  let r := sim_fn numpy_exp float_str lit_1e10 run_CQ_fluid_simulation_vTf d
             Tf1 Tf2 tmin nAr log_walltime alpha beta
             batch_size random_state in
  let arrays := [Tf1; Tf2; tmin; nAr; log_walltime; alpha; beta] in
  (existsb is_empty arrays = true -> r = (Raise IndexError, d)) /\
  (existsb is_empty arrays = false -> List.length Tf1 <> 1%nat ->
   r = (Raise TypeError, d)).
Proof.
  cbv zeta. unfold sim_fn, sim_fn_kwargs. split.
  - destruct Tf1 as [|a1 ?]; [reflexivity|].
    destruct Tf2 as [|a2 ?]; [reflexivity|].
    destruct tmin as [|a3 ?]; [reflexivity|].
    destruct nAr as [|a4 ?]; [reflexivity|].
    destruct log_walltime as [|a5 ?]; [reflexivity|].
    destruct alpha as [|a6 ?]; [reflexivity|].
    destruct beta as [|a7 ?]; [reflexivity|].
    discriminate.
  - destruct Tf1 as [|a1 [|b1 ?]]; [discriminate| |];
    (destruct Tf2 as [|a2 ?]; [discriminate|]);
    (destruct tmin as [|a3 ?]; [discriminate|]);
    (destruct nAr as [|a4 ?]; [discriminate|]);
    (destruct log_walltime as [|a5 ?]; [discriminate|]);
    (destruct alpha as [|a6 ?]; [discriminate|]);
    (destruct beta as [|a7 ?]; [discriminate|]);
    intros _ H; [contradiction H; reflexivity|reflexivity].
Qed.

(** X10.  [sim_fn] reads [Tf1] and the first element of each of the
    other six arrays, and nothing else of them: two calls that agree on
    [Tf1] and on the first elements (or on their absence) return the same
    result and leave the same outside state, whatever follows the first
    elements. *)
Theorem sim_fn_reads_first_elements
    (d : disk) (Tf1 : list float)
    (Tf2 tmin nAr log_walltime alpha beta : list float)
    (Tf2' tmin' nAr' log_walltime' alpha' beta' : list float)
    (batch_size : Z) (random_state : option RandomState) :
  hd_error Tf2' = hd_error Tf2 ->
  hd_error tmin' = hd_error tmin ->
  hd_error nAr' = hd_error nAr ->
  hd_error log_walltime' = hd_error log_walltime ->
  hd_error alpha' = hd_error alpha ->
  hd_error beta' = hd_error beta ->
  sim_fn numpy_exp float_str lit_1e10 run_CQ_fluid_simulation_vTf d
         Tf1 Tf2' tmin' nAr' log_walltime' alpha' beta'
         batch_size random_state
  = sim_fn numpy_exp float_str lit_1e10 run_CQ_fluid_simulation_vTf d
           Tf1 Tf2 tmin nAr log_walltime alpha beta
           batch_size random_state.
Proof.
  intros H2 H3 H4 H5 H6 H7. unfold sim_fn, sim_fn_kwargs.
  rewrite !getitem_0, H2, H3, H4, H5, H6, H7. reflexivity.
Qed.

(** X11.  Every call of the simulation gets the same input and output
    file names and [Nre = 1e10], whatever the parameters; the names of
    the other two files are made from [Tf1] alone, so two calls with the
    same [Tf1] get the same four file names. *)
Theorem sim_fn_scratch_files
    (Tf1 Tf2 tmin nAr log_walltime alpha beta : list float)
    (Tf1' Tf2' tmin' nAr' log_walltime' alpha' beta' : list float)
    (kw kw' : sim_kwargs float) :
  sim_fn_kwargs float numpy_exp float_str lit_1e10
    Tf1 Tf2 tmin nAr log_walltime alpha beta = Ok kw ->
  sim_fn_kwargs float numpy_exp float_str lit_1e10
    Tf1' Tf2' tmin' nAr' log_walltime' alpha' beta' = Ok kw' ->
  kw_inputfilename float kw = "bolfi_7D_runs/test1i.h5" /\
  kw_outputfilename float kw = "bolfi_7D_runs/test1o.h5" /\
  kw_inputfilename float kw' = kw_inputfilename float kw /\
  kw_outputfilename float kw' = kw_outputfilename float kw /\
  kw_Nre float kw = lit_1e10 /\
  (Tf1' = Tf1 ->
   kw_initoutfile float kw' = kw_initoutfile float kw /\
   kw_CQfluidoutfile float kw' = kw_CQfluidoutfile float kw).
Proof.
  unfold sim_fn_kwargs.
  destruct Tf1 as [|a1 [|? ?]]; try discriminate;
  destruct Tf2 as [|a2 ?]; try discriminate;
  destruct tmin as [|a3 ?]; try discriminate;
  destruct nAr as [|a4 ?]; try discriminate;
  destruct log_walltime as [|a5 ?]; try discriminate;
  destruct alpha as [|a6 ?]; try discriminate;
  destruct beta as [|a7 ?]; try discriminate.
  destruct Tf1' as [|b1 [|? ?]]; try discriminate;
  destruct Tf2' as [|b2 ?]; try discriminate;
  destruct tmin' as [|b3 ?]; try discriminate;
  destruct nAr' as [|b4 ?]; try discriminate;
  destruct log_walltime' as [|b5 ?]; try discriminate;
  destruct alpha' as [|b6 ?]; try discriminate;
  destruct beta' as [|b7 ?]; try discriminate.
  cbn -[String.append]. intros [= <-] [= <-]. cbn -[String.append].
  repeat (split; [reflexivity|]). intros [= ->]. split; reflexivity.
Qed.

End SimulatorAdapterEdges.

(** Two batches over integers that differ after their first elements,
    with a simulation that answers with its arguments. *)
Lemma sim_fn_reads_first_elements_witness :
  let run := fun (d : unit) (kw : sim_kwargs Z) =>
               (Ok (mkH5 [kw_Tf2 Z kw; kw_walltime kw]
                         (nd1 [kw_alpha Z kw; kw_beta Z kw])), d) in
  sim_fn Z.succ str (10 ^ 10) run tt [3] [1; 10] [2; 20] [4; 40] [7; 70]
         [5; 50] [6; 60] 2 (@None unit)
  = sim_fn Z.succ str (10 ^ 10) run tt [3] [1] [2] [4] [7] [5] [6]
           2 (@None unit).
Proof.
  cbv zeta.
  exact (sim_fn_reads_first_elements Z Z.succ str (10 ^ 10) unit unit _ tt
           [3] [1] [2] [4] [7] [5] [6]
           [1; 10] [2; 20] [4; 40] [7; 70] [5; 50] [6; 60] 2 None
           eq_refl eq_refl eq_refl eq_refl eq_refl eq_refl).
Defined.

(** Two parameter vectors over integers, with [str] for [str(float(x))]. *)
Lemma sim_fn_scratch_files_witness :
  exists kw kw',
    sim_fn_kwargs Z Z.succ str (10 ^ 10) [3] [1] [2] [4] [7] [5] [6] = Ok kw /\
    sim_fn_kwargs Z Z.succ str (10 ^ 10) [3] [9] [8] [7] [6] [5] [4] = Ok kw' /\
    kw_outputfilename Z kw' = kw_outputfilename Z kw /\
    kw_initoutfile Z kw' = kw_initoutfile Z kw /\
    kw_initoutfile Z kw = "bolfi_7D_runs/3init_out.h5".
Proof.
  eexists. eexists. split; [reflexivity|]. split; [reflexivity|].
  pose proof (sim_fn_scratch_files Z Z.succ str (10 ^ 10)
                [3] [1] [2] [4] [7] [5] [6] [3] [9] [8] [7] [6] [5] [4]
                _ _ eq_refl eq_refl) as H.
  destruct H as (_ & _ & _ & H1 & _ & H2).
  split; [exact H1|]. split; [exact (proj1 (H2 eq_refl))|reflexivity].
Defined.
